(** * broadcast-event-system: the listener registries of [EventService] and
    [BroadcastService], embedded from the TypeScript sources.

    - [Js]: the fragment of the JavaScript runtime both classes rely on
      (exceptions, [try]/[catch], [console.error], template literals).
    - [EventService]: [core/EventService.ts].
    - [BroadcastService]: [core/BroadcastService.ts], over a model of the
      platform's [BroadcastChannel].
    - [Hooks]: the effects that the subscribing hooks of [react/] hand to
      React.

    Object identity is kept where the code depends on it: listener functions
    are compared by reference, the [Set] held under an event name is one
    mutable object that [emit] keeps iterating while listeners run, and every
    [BroadcastChannel] is an object of its own. *)

From stdpp Require Import base option list gmap strings pretty sorting.

(** ** JavaScript runtime *)

Module Js.

(** Values that can be thrown. *)
Inductive exn : Type :=
| UserError (msg : string)      (* thrown by a caller-supplied callback *)
| TypeError (msg : string)      (* raised by the runtime *)
| InvalidStateError             (* DOMException: postMessage on a closed channel *)
| DataCloneError.               (* DOMException: payload cannot be cloned *)

(** How a call ends. [Diverged] stands for a call that has not returned
    within the step budget of the model; it is not an exception and no
    [catch] sees it. *)
Inductive outcome (A : Type) : Type :=
| Normal (a : A)
| Thrown (e : exn)
| Diverged.
Arguments Normal {A} a.
Arguments Thrown {A} e.
Arguments Diverged {A}.

(** Computations over a mutable world [W]. *)
Definition M (W A : Type) : Type := W → outcome A * W.

Definition ret {W A} (a : A) : M W A := λ w, (Normal a, w).

Definition bind {W A B} (m : M W A) (k : A → M W B) : M W B :=
  λ w, match m w with
       | (Normal a, w') => k a w'
       | (Thrown e, w') => (Thrown e, w')
       | (Diverged, w') => (Diverged, w')
       end.

Definition throw {W A} (e : exn) : M W A := λ w, (Thrown e, w).
Definition diverge {W A} : M W A := λ w, (Diverged, w).
Definition gets {W A} (f : W → A) : M W A := λ w, (Normal (f w), w).
Definition modify {W} (f : W → W) : M W unit := λ w, (Normal tt, f w).

(** [try { body } catch (error) { handler(error) }] *)
Definition try_catch {W A} (body : M W A) (handler : exn → M W A) : M W A :=
  λ w, match body w with
       | (Thrown e, w') => handler e w'
       | r => r
       end.

(** Statements in sequence, left to right. *)
Fixpoint for_each {W A} (f : A → M W unit) (l : list A) : M W unit :=
  match l with
  | [] => ret tt
  | x :: l' => bind (f x) (λ _, for_each f l')
  end.

(** The character U+0022, written by its code. *)
Definition dquote : string := String (Ascii.ascii_of_nat 34) EmptyString.

(** A [console.error(message, error)] call. *)
Definition console_line : Type := string * exn.

(** [m] keeps [P], however it ends. *)
Definition preserves {W A} (P : W → Prop) (m : M W A) : Prop :=
  ∀ w, P w → P (m w).2.

(** No exception leaves [m]. *)
Definition never_throws {W A} (m : M W A) : Prop :=
  ∀ w e, (m w).1 ≠ Thrown e.

End Js.

Import Js.

Declare Scope js_scope.
Delimit Scope js_scope with js.
Notation "'let!' x ':=' m 'in' k" := (bind m (λ x, k))
  (at level 10, x name, m at level 100, k at level 200) : js_scope.
Notation "m ';;;' k" := (bind m (λ _, k))
  (at level 100, k at level 200, right associativity) : js_scope.
Open Scope js_scope.

(** ** core/EventService.ts *)

Module EventService.
Section Model.

(** The type [T] of the data carried by events. *)
Context {Data : Type}.

(** A listener is a function reference; [Set] compares them by identity. *)
Definition Listener : Type := nat.

(** [EventPayload<T> = { type: string; data: T }] *)
Record EventPayload : Type := { type : string; data : Data }.

(** Address of a [Set] object. *)
Definition loc : Type := nat.

(** [[SetData]] of a [Set]: the entries in insertion order; [delete]
    leaves the slot empty ([None]) so that a running [forEach] keeps its
    position (ECMAScript, Set.prototype.delete / forEach). *)
Definition SetData : Type := list (option Listener).

Record World : Type := {
  listeners : gmap string loc;           (* this.listeners: Map<string, Set<..>> *)
  sets : gmap loc SetData;               (* the Set objects *)
  next_loc : loc;                        (* next free address *)
  console : list console_line;           (* console.error calls so far *)
  calls : list (Listener * EventPayload) (* listener invocations so far *)
}.

(** [new EventService()] *)
Definition init : World :=
  {| listeners := ∅; sets := ∅; next_loc := 0; console := []; calls := [] |}.

Definition set_listeners (f : gmap string loc → gmap string loc) (w : World) : World :=
  {| listeners := f (listeners w); sets := sets w; next_loc := next_loc w;
     console := console w; calls := calls w |}.
Definition set_sets (f : gmap loc SetData → gmap loc SetData) (w : World) : World :=
  {| listeners := listeners w; sets := f (sets w); next_loc := next_loc w;
     console := console w; calls := calls w |}.

(** *** Set objects *)

Definition entries_of (s : loc) (w : World) : SetData := default [] (sets w !! s).

(** The values currently in the set, in insertion order. *)
Definition live (entries : SetData) : list Listener := omap id entries.

Definition SetData_add (v : Listener) (entries : SetData) : SetData :=
  if decide (Some v ∈ entries) then entries else entries ++ [Some v].
Definition SetData_delete (v : Listener) (entries : SetData) : SetData :=
  (λ e, if decide (e = Some v) then None else e) <$> entries.

(** [new Set()] *)
Definition new_Set : M World loc :=
  λ w, (Normal (next_loc w),
        {| listeners := listeners w; sets := <[next_loc w := []]> (sets w);
           next_loc := S (next_loc w); console := console w; calls := calls w |}).
(** [s.add(v)] *)
Definition Set_add (s : loc) (v : Listener) : M World unit :=
  modify (λ w, set_sets <[s := SetData_add v (entries_of s w)]> w).
(** [s.delete(v)] *)
Definition Set_delete (s : loc) (v : Listener) : M World unit :=
  modify (λ w, set_sets <[s := SetData_delete v (entries_of s w)]> w).
(** [s.size] *)
Definition Set_size (s : loc) : M World nat :=
  gets (λ w, length (live (entries_of s w))).

(** [s.forEach(callbackfn)]: walks the entries by index and reads the set
    again after every callback, so entries appended meanwhile are visited
    and entries deleted meanwhile are skipped. [fuel] bounds the number of
    entries visited. *)
Fixpoint Set_forEach_from (fuel : nat) (s : loc) (callbackfn : Listener → M World unit)
    (index : nat) : M World unit :=
  λ w, match entries_of s w !! index with
       | None => (Normal tt, w)
       | Some e =>
         match fuel with
         | 0 => (Diverged, w)
         | S fuel' =>
           match e with
           | Some v => (callbackfn v ;;; Set_forEach_from fuel' s callbackfn (S index)) w
           | None => Set_forEach_from fuel' s callbackfn (S index) w
           end
         end
       end.
Definition Set_forEach (fuel : nat) (s : loc) (callbackfn : Listener → M World unit)
    : M World unit :=
  Set_forEach_from fuel s callbackfn 0.

(** *** The Map [this.listeners] *)

Definition Map_get (k : string) : M World (option loc) := gets (λ w, listeners w !! k).
Definition Map_has (k : string) : M World bool :=
  gets (λ w, bool_decide (is_Some (listeners w !! k))).
Definition Map_set (k : string) (s : loc) : M World unit := modify (set_listeners <[k := s]>).
Definition Map_delete (k : string) : M World unit := modify (set_listeners (delete k)).
Definition Map_clear : M World unit := modify (set_listeners (λ _, ∅)).

(** [console.error(message, error)] *)
Definition console_error (message : string) (error : exn) : M World unit :=
  modify (λ w, {| listeners := listeners w; sets := sets w; next_loc := next_loc w;
                  console := console w ++ [(message, error)]; calls := calls w |}).

(** *** Methods *)

(** lines 34-40 *)
Definition on (eventType : string) (listener : Listener) : M World unit :=
  let! present := Map_has eventType in
  (if negb present
   then let! s := new_Set in Map_set eventType s
   else ret tt) ;;;
  let! s := Map_get eventType in
  match s with
  | Some s => Set_add s listener
  | None => throw (TypeError "Cannot read properties of undefined (reading 'add')")
  end.

(** lines 47-55 *)
Definition off (eventType : string) (listener : Listener) : M World unit :=
  let! eventListeners := Map_get eventType in
  match eventListeners with
  | Some s =>
    Set_delete s listener ;;;
    let! size := Set_size s in
    if size =? 0 then Map_delete eventType else ret tt
  | None => ret tt
  end.

(** lines 61-63 *)
Definition clear (eventType : string) : M World unit := Map_delete eventType.

(** lines 68-70 *)
Definition clearAll : M World unit := Map_clear.

(** lines 77-79: [this.listeners.get(eventType)?.size || 0] *)
Definition listenerCount (eventType : string) (w : World) : nat :=
  match listeners w !! eventType with
  | Some s => length (live (entries_of s w))
  | None => 0
  end.

(** lines 85-87: the keys of the map (their order is not modelled). *)
Definition eventTypes (w : World) : list string := (map_to_list (listeners w)).*1.

Definition listener_error_message (eventType : string) : string :=
  "Error in event listener for " +:+ dquote +:+ eventType +:+ dquote +:+ ":".

(** lines 19-25: the function given to [forEach], over the way
    [listener(payload)] runs. *)
Definition guarded_call (call_listener : Listener → EventPayload → M World unit)
    (eventType : string) (payload : EventPayload) (listener : Listener) : M World unit :=
  try_catch (call_listener listener payload)
            (λ error, console_error (listener_error_message eventType) error).

(** lines 15-27 *)
Definition emit_with (call_listener : Listener → EventPayload → M World unit)
    (fuel : nat) (eventType : string) (data : Data) : M World unit :=
  let! eventListeners := Map_get eventType in
  match eventListeners with
  | Some s =>
    let payload := {| type := eventType; data := data |} in
    Set_forEach fuel s (guarded_call call_listener eventType payload)
  | None => ret tt
  end.

(** *** Listeners

    What a listener does when it is called is the caller's code. It is
    described by the calls it makes back into the service, in order, and
    by how it ends. *)

Inductive Call : Type :=
| COn (eventType : string) (listener : Listener)
| COff (eventType : string) (listener : Listener)
| CEmit (eventType : string) (data : Data)
| CClear (eventType : string)
| CClearAll.

Record Body : Type := {
  script : list Call;        (* calls into the service, in order *)
  completion : option exn    (* [Some e]: then throws [e]; [None]: then returns *)
}.

Variable behaviour : Listener → EventPayload → Body.

Definition record_call (listener : Listener) (payload : EventPayload) : M World unit :=
  modify (λ w, {| listeners := listeners w; sets := sets w; next_loc := next_loc w;
                  console := console w; calls := calls w ++ [(listener, payload)] |}).

(** [listener(payload)] *)
Definition call_listener (run : Call → M World unit)
    (listener : Listener) (payload : EventPayload) : M World unit :=
  record_call listener payload ;;;
  for_each run (script (behaviour listener payload)) ;;;
  match completion (behaviour listener payload) with
  | Some e => throw e
  | None => ret tt
  end.

(** A call made by a listener; [fuel] bounds the nesting of [emit]. *)
Fixpoint run_call (fuel : nat) (c : Call) : M World unit :=
  match c with
  | COn eventType listener => on eventType listener
  | COff eventType listener => off eventType listener
  | CClear eventType => clear eventType
  | CClearAll => clearAll
  | CEmit eventType data =>
    match fuel with
    | 0 => diverge
    | S fuel' => emit_with (call_listener (run_call fuel')) fuel' eventType data
    end
  end.

(** lines 15-27 *)
Definition emit (fuel : nat) (eventType : string) (data : Data) : M World unit :=
  emit_with (call_listener (run_call fuel)) fuel eventType data.

(** The states a service can be in: a fresh one, and the state any call
    from outside leaves behind. *)
Inductive reachable : World → Prop :=
| reachable_init : reachable init
| reachable_call w fuel c : reachable w → reachable (run_call fuel c w).2.

(** [on(n, l)] for each [l] of [L], in order. *)
Definition register_all (n : string) (L : list Listener) (w : World) : World :=
  foldl (λ w l, (on n l w).2) w L.

(** The listeners currently registered for [n], in insertion order. *)
Definition registered (n : string) (w : World) : list Listener :=
  match listeners w !! n with
  | Some s => live (entries_of s w)
  | None => []
  end.

(** How many times [l] has been called so far. *)
Definition invocations (l : Listener) (w : World) : nat :=
  length (filter (λ c, c.1 = l) (calls w)).

(** No dangling entry: every key maps to a set with at least one value. *)
Definition no_empty_entry (w : World) : Prop :=
  ∀ n s, listeners w !! n = Some s → 0 < length (live (entries_of s w)).

(** Shape of the store in every reachable state. *)
Record wf (w : World) : Prop := {
  wf_alloc : ∀ n s, listeners w !! n = Some s → s < next_loc w;
  wf_nonempty : no_empty_entry w;
  wf_inj : ∀ n1 n2 s, listeners w !! n1 = Some s → listeners w !! n2 = Some s → n1 = n2;
  wf_nodup : ∀ s, NoDup (live (entries_of s w))
}.

(** Listeners that call nothing back (they may still throw). *)
Definition quiet (l : Listener) : Prop := ∀ p, script (behaviour l p) = [].

(** What a dispatch to the listeners [ls] adds to the logs. *)
Definition new_calls (payload : EventPayload) (ls : list Listener)
    : list (Listener * EventPayload) :=
  (λ l, (l, payload)) <$> ls.
Definition new_errors (payload : EventPayload) (ls : list Listener) : list console_line :=
  omap (λ l, (λ e, (listener_error_message (type payload), e))
               <$> completion (behaviour l payload)) ls.
Definition logged (payload : EventPayload) (ls : list Listener) (w : World) : World :=
  {| listeners := listeners w; sets := sets w; next_loc := next_loc w;
     console := console w ++ new_errors payload ls;
     calls := calls w ++ new_calls payload ls |}.



End Model.

Arguments listener_error_message : simpl never.


End EventService.

(** ** core/BroadcastService.ts *)

Module BroadcastService.
Section Model.

(** Payloads ([any]); [None] below stands for [undefined], which is also
    what an omitted [data?] argument is. *)
Context {Data : Type}.

(** Platform: whether the structured clone of a payload succeeds. *)
Variable serializable : Data → bool.

(** The caller's callback, a function reference. *)
Definition Callback : Type := nat.

(** Address of an object. *)
Definition ref : Type := nat.

(** The closure [messageHandler] of lines 27-33: a function object of its
    own for every [subscribe] call, capturing [channelName] and
    [callback]. *)
Record Handler : Type := {
  handler_addr : ref;
  handler_channelName : string;
  handler_callback : Callback
}.

#[global] Instance Handler_eq_dec : EqDecision Handler.
Proof. solve_decision. Defined.

(** A [BroadcastChannel] object of the platform: its name, whether
    [close()] was called, and its ['message'] event listeners. *)
Record BroadcastChannel : Type := {
  name : string;
  closed : bool;
  message_listeners : list Handler
}.

Record World : Type := {
  channels : gmap string ref;                     (* this.channels *)
  listeners : gmap string (gmap string Handler);  (* this.listeners *)
  listenerIdCounter : N;                          (* this.listenerIdCounter *)
  objects : gmap ref BroadcastChannel;            (* the BroadcastChannel objects *)
  next_ref : ref;                                 (* next free address *)
  posted : list (ref * option Data);              (* messages given to the transport *)
  console : list console_line;                    (* console.error calls so far *)
  calls : list (Callback * option Data);          (* callback invocations so far *)
  issued : list string                            (* ids returned by subscribe so far *)
}.

(** [new BroadcastService()] *)
Definition init : World :=
  {| channels := ∅; listeners := ∅; listenerIdCounter := 0; objects := ∅; next_ref := 0;
     posted := []; console := []; calls := []; issued := [] |}.

Definition set_channels (f : gmap string ref → gmap string ref) (w : World) : World :=
  {| channels := f (channels w); listeners := listeners w;
     listenerIdCounter := listenerIdCounter w; objects := objects w;
     next_ref := next_ref w; posted := posted w; console := console w;
     calls := calls w; issued := issued w |}.
Definition set_listeners
    (f : gmap string (gmap string Handler) → gmap string (gmap string Handler))
    (w : World) : World :=
  {| channels := channels w; listeners := f (listeners w);
     listenerIdCounter := listenerIdCounter w; objects := objects w;
     next_ref := next_ref w; posted := posted w; console := console w;
     calls := calls w; issued := issued w |}.
Definition set_listenerIdCounter (f : N → N) (w : World) : World :=
  {| channels := channels w; listeners := listeners w;
     listenerIdCounter := f (listenerIdCounter w); objects := objects w;
     next_ref := next_ref w; posted := posted w; console := console w;
     calls := calls w; issued := issued w |}.
Definition set_objects
    (f : gmap ref BroadcastChannel → gmap ref BroadcastChannel) (w : World) : World :=
  {| channels := channels w; listeners := listeners w;
     listenerIdCounter := listenerIdCounter w; objects := f (objects w);
     next_ref := next_ref w; posted := posted w; console := console w;
     calls := calls w; issued := issued w |}.
Definition set_next_ref (f : ref → ref) (w : World) : World :=
  {| channels := channels w; listeners := listeners w;
     listenerIdCounter := listenerIdCounter w; objects := objects w;
     next_ref := f (next_ref w); posted := posted w; console := console w;
     calls := calls w; issued := issued w |}.
Definition set_posted
    (f : list (ref * option Data) → list (ref * option Data)) (w : World) : World :=
  {| channels := channels w; listeners := listeners w;
     listenerIdCounter := listenerIdCounter w; objects := objects w;
     next_ref := next_ref w; posted := f (posted w); console := console w;
     calls := calls w; issued := issued w |}.
Definition set_console (f : list console_line → list console_line) (w : World) : World :=
  {| channels := channels w; listeners := listeners w;
     listenerIdCounter := listenerIdCounter w; objects := objects w;
     next_ref := next_ref w; posted := posted w; console := f (console w);
     calls := calls w; issued := issued w |}.
Definition set_calls
    (f : list (Callback * option Data) → list (Callback * option Data)) (w : World) : World :=
  {| channels := channels w; listeners := listeners w;
     listenerIdCounter := listenerIdCounter w; objects := objects w;
     next_ref := next_ref w; posted := posted w; console := console w;
     calls := f (calls w); issued := issued w |}.
Definition set_issued (f : list string → list string) (w : World) : World :=
  {| channels := channels w; listeners := listeners w;
     listenerIdCounter := listenerIdCounter w; objects := objects w;
     next_ref := next_ref w; posted := posted w; console := console w;
     calls := calls w; issued := f (issued w) |}.

(** *** The platform's BroadcastChannel *)

(** [new BroadcastChannel(name)] *)
Definition new_BroadcastChannel (channelName : string) : M World ref :=
  λ w, (Normal (next_ref w),
        set_next_ref S
          (set_objects
             <[next_ref w := {| name := channelName; closed := false;
                                message_listeners := [] |}]> w)).

Definition add_listener (h : Handler) (o : BroadcastChannel) : BroadcastChannel :=
  {| name := name o; closed := closed o;
     message_listeners :=
       if decide (h ∈ message_listeners o) then message_listeners o
       else message_listeners o ++ [h] |}.
Definition remove_listener (h : Handler) (o : BroadcastChannel) : BroadcastChannel :=
  {| name := name o; closed := closed o;
     message_listeners := filter (λ h', h' ≠ h) (message_listeners o) |}.
Definition mark_closed (o : BroadcastChannel) : BroadcastChannel :=
  {| name := name o; closed := true; message_listeners := message_listeners o |}.

(** [channel.addEventListener('message', h)] *)
Definition addEventListener (channel : ref) (h : Handler) : M World unit :=
  modify (set_objects (alter (add_listener h) channel)).
(** [channel.removeEventListener('message', h)] *)
Definition removeEventListener (channel : ref) (h : Handler) : M World unit :=
  modify (set_objects (alter (remove_listener h) channel)).
(** [channel.close()] *)
Definition BroadcastChannel_close (channel : ref) : M World unit :=
  modify (set_objects (alter mark_closed channel)).

Definition is_closed (channel : ref) (w : World) : bool :=
  match objects w !! channel with Some o => closed o | None => false end.
(** The adapters attached to a channel object, in the order they were
    added. *)
Definition adapters_of (channel : ref) (w : World) : list Handler :=
  match objects w !! channel with Some o => message_listeners o | None => [] end.
Definition can_clone (data : option Data) : bool :=
  match data with Some d => serializable d | None => true end.

(** [channel.postMessage(data)]: fails on a closed channel and on a
    payload that cannot be cloned; otherwise the message is handed to the
    transport, which delivers it later. *)
Definition postMessage (channel : ref) (data : option Data) : M World unit :=
  let! is_closed := gets (is_closed channel) in
  if is_closed : bool then throw InvalidStateError
  else if can_clone data then modify (set_posted (λ q, q ++ [(channel, data)]))
  else throw DataCloneError.

(** [console.error(message, error)] *)
Definition console_error (message : string) (error : exn) : M World unit :=
  modify (set_console (λ c, c ++ [(message, error)])).

(** A fresh function object for [messageHandler]. *)
Definition new_closure (channelName : string) (callback : Callback) : M World Handler :=
  λ w, (Normal {| handler_addr := next_ref w; handler_channelName := channelName;
                  handler_callback := callback |},
        set_next_ref S w).

(** *** Methods *)

(** [`listener_${n}`]; the counter is a JS number holding an integer, exact
    below 2^53, and is modelled as a natural number. *)
Definition listener_id (n : N) : string := "listener_" +:+ pretty n.

(** [++this.listenerIdCounter] *)
Definition pre_increment_listenerIdCounter : M World N :=
  modify (set_listenerIdCounter N.succ) ;;; gets listenerIdCounter.

Definition channels_has (k : string) : M World bool :=
  gets (λ w, bool_decide (is_Some (channels w !! k))).

(** lines 18-39. The inner [Map] under [this.listeners] is only ever
    reached through [this.listeners.get(channelName)], so it is kept by
    value and written back. *)
Definition subscribe (channelName : string) (callback : Callback) : M World string :=
  let! present := channels_has channelName in
  (if negb present
   then let! ch := new_BroadcastChannel channelName in
        modify (set_channels <[channelName := ch]>) ;;;
        modify (set_listeners <[channelName := ∅]>)
   else ret tt) ;;;
  let! channel := gets (λ w, channels w !! channelName) in
  let! n := pre_increment_listenerIdCounter in
  let listenerId := listener_id n in
  let! messageHandler := new_closure channelName callback in
  match channel with
  | Some ch => addEventListener ch messageHandler
  | None => throw (TypeError "Cannot read properties of undefined (reading 'addEventListener')")
  end ;;;
  let! ls := gets (λ w, listeners w !! channelName) in
  match ls with
  | Some ls =>
    modify (set_listeners <[channelName := <[listenerId := messageHandler]> ls]>) ;;;
    ret listenerId
  | None => throw (TypeError "Cannot read properties of undefined (reading 'set')")
  end.

(** lines 46-57 *)
Definition unsubscribe (channelName listenerId : string) : M World unit :=
  let! channel := gets (λ w, channels w !! channelName) in
  let! listeners := gets (λ w, listeners w !! channelName) in
  match channel, listeners with
  | Some ch, Some ls =>
    match ls !! listenerId with
    | Some messageHandler =>
      removeEventListener ch messageHandler ;;;
      modify (set_listeners <[channelName := delete listenerId ls]>)
    | None => ret tt
    end
  | _, _ => ret tt
  end.

Definition broadcast_error_message (channelName : string) : string :=
  "Error broadcasting to " +:+ dquote +:+ channelName +:+ dquote +:+ ":".

(** lines 64-74 *)
Definition broadcast (channelName : string) (data : option Data) : M World unit :=
  let! present := channels_has channelName in
  (if negb present
   then let! ch := new_BroadcastChannel channelName in
        modify (set_channels <[channelName := ch]>)
   else ret tt) ;;;
  try_catch
    (let! channel := gets (λ w, channels w !! channelName) in
     match channel with
     | Some ch => postMessage ch data
     | None => throw (TypeError "Cannot read properties of undefined (reading 'postMessage')")
     end)
    (λ error, console_error (broadcast_error_message channelName) error).

(** lines 80-94. The adapters are detached in the order of the map's
    entries, which has no bearing on the result. *)
Definition close (channelName : string) : M World unit :=
  let! channel := gets (λ w, channels w !! channelName) in
  let! listeners := gets (λ w, listeners w !! channelName) in
  match channel, listeners with
  | Some ch, Some ls =>
    for_each (λ listener, removeEventListener ch listener) (map_to_list ls).*2 ;;;
    BroadcastChannel_close ch ;;;
    modify (set_channels (delete channelName)) ;;;
    modify (set_listeners (delete channelName))
  | _, _ => ret tt
  end.

(** lines 99-111. [this.channels] is not written during the loop, so the
    loop runs over its entries as they are when it starts. *)
Definition closeAll : M World unit :=
  let! all := gets (λ w, map_to_list (channels w)) in
  for_each (λ entry : string * ref,
    let channelName := entry.1 in
    let channel := entry.2 in
    let! listeners := gets (λ w, listeners w !! channelName) in
    match listeners with
    | Some ls =>
      for_each (λ listener, removeEventListener channel listener) (map_to_list ls).*2
    | None => ret tt
    end ;;;
    BroadcastChannel_close channel) all ;;;
  modify (set_channels (λ _, ∅)) ;;;
  modify (set_listeners (λ _, ∅)).

(** lines 117-119: the keys of [this.channels] (their order is not
    modelled). *)
Definition getActiveChannels (w : World) : list string := (map_to_list (channels w)).*1.

(** lines 126-128 *)
Definition isChannelActive (channelName : string) (w : World) : bool :=
  bool_decide (is_Some (channels w !! channelName)).

(** *** Callbacks and delivery *)

Inductive Call : Type :=
| CSubscribe (channelName : string) (callback : Callback)
| CUnsubscribe (channelName listenerId : string)
| CBroadcast (channelName : string) (data : option Data)
| CClose (channelName : string)
| CCloseAll.

(** What a callback does when called: the calls it makes into the
    service, in order, and how it ends. *)
Record Body : Type := {
  script : list Call;
  completion : option exn
}.

Variable behaviour : Callback → option Data → Body.

(** A call on the service; the id a [subscribe] returns is noted. *)
Definition run_call (c : Call) : M World unit :=
  match c with
  | CSubscribe channelName callback =>
    let! id := subscribe channelName callback in
    modify (set_issued (λ l, l ++ [id]))
  | CUnsubscribe channelName listenerId => unsubscribe channelName listenerId
  | CBroadcast channelName data => broadcast channelName data
  | CClose channelName => close channelName
  | CCloseAll => closeAll
  end.

(** [callback(event.data)] *)
Definition call_callback (callback : Callback) (data : option Data) : M World unit :=
  modify (set_calls (λ l, l ++ [(callback, data)])) ;;;
  for_each run_call (script (behaviour callback data)) ;;;
  match completion (behaviour callback data) with
  | Some e => throw e
  | None => ret tt
  end.

Definition callback_error_message (channelName : string) : string :=
  "Error in broadcast callback for " +:+ dquote +:+ channelName +:+ dquote +:+ ":".

(** lines 27-33: [messageHandler(event)] *)
Definition messageHandler (h : Handler) (event_data : option Data) : M World unit :=
  try_catch (call_callback (handler_callback h) event_data)
            (λ error, console_error (callback_error_message (handler_channelName h)) error).


(** What can happen to a service: a call from outside, or the transport
    delivering a message to an adapter. *)
Inductive Event : Type :=
| Api (c : Call)
| Deliver (h : Handler) (event_data : option Data).

Definition run_event (e : Event) (w : World) : World :=
  match e with
  | Api c => (run_call c w).2
  | Deliver h d => (messageHandler h d w).2
  end.

Definition run_events (es : list Event) (w : World) : World :=
  foldl (λ w e, run_event e w) w es.

(** [c] has a transport handle but no listener map. *)
Definition handle_only (c : string) (w : World) : Prop :=
  is_Some (channels w !! c) ∧ listeners w !! c = None.





(** *** Shape of the store

    What holds of the maps and of the channel objects in every state a
    service can reach. *)

(** An active channel has an open handle, named after it. *)
Definition handles_open (w : World) : Prop :=
  ∀ (c : string) (ch : ref), channels w !! c = Some ch →
    ch < next_ref w ∧ ∃ o, objects w !! ch = Some o ∧ closed o = false ∧ name o = c.

(** No two channels share a handle. *)
Definition handles_distinct (w : World) : Prop :=
  ∀ c1 c2 ch, channels w !! c1 = Some ch → channels w !! c2 = Some ch → c1 = c2.

(** The adapters attached to any object were allocated below [bound]. *)
Definition adapters_below (bound : ref) (w : World) : Prop :=
  ∀ r o h, objects w !! r = Some o → h ∈ message_listeners o → handler_addr h < bound.

(** A channel with a listener map has a handle, and the adapters on the
    handle are those the map holds. *)
Definition tracked_attached (w : World) : Prop :=
  ∀ c ls, listeners w !! c = Some ls →
    ∃ ch, channels w !! c = Some ch ∧ ∀ h, h ∈ adapters_of ch w ↔ ∃ i, ls !! i = Some h.

(** The ids in a listener map were issued by the counter, for adapters of
    that channel. *)
Definition tracked_ids (w : World) : Prop :=
  ∀ c ls i h, listeners w !! c = Some ls → ls !! i = Some h →
    handler_channelName h = c ∧
    ∃ k, i = listener_id k ∧ (0 < k ≤ listenerIdCounter w)%N.

(** An id is held by one channel. *)
Definition id_one_channel (w : World) : Prop :=
  ∀ c1 c2 ls1 ls2 i,
    listeners w !! c1 = Some ls1 → listeners w !! c2 = Some ls2 →
    is_Some (ls1 !! i) → is_Some (ls2 !! i) → c1 = c2.

(** An adapter is held under one id. *)
Definition handler_one_id (w : World) : Prop :=
  ∀ c ls i j h, listeners w !! c = Some ls → ls !! i = Some h → ls !! j = Some h → i = j.


Record consistent (w : World) : Prop := {
  c_open : handles_open w;
  c_distinct : handles_distinct w;
  c_below : adapters_below (next_ref w) w;
  c_attached : tracked_attached w;
  c_ids : tracked_ids w;
  c_channel : id_one_channel w;
  c_handler : handler_one_id w
}.

End Model.

Arguments listener_id : simpl never.
Arguments broadcast_error_message : simpl never.
Arguments callback_error_message : simpl never.

End BroadcastService.

(** ** react/useEventOn.ts and react/useBroadcast.ts: the effects

    The two subscribing hooks hand React an effect: a function that
    subscribes and returns the function that undoes it. *)

Module Hooks.

(** What React does with an effect over the life of a component: it calls
    the effect when the component is mounted, keeps the function the
    effect returns, and calls that function when the component is
    unmounted. *)
Definition mount_unmount {W : Type} (effect : M W (M W unit)) : M W unit :=
  let! cleanup := effect in cleanup.

Section UseEventOn.

Context {Data : Type}.


(** useEventOn.ts, lines 29-42: the effect. [listener] is the function
    object that line 30 creates, a new one each time the effect runs. *)
Definition useEventOn_effect (eventType : string) (listener : EventService.Listener)
    : M (@EventService.World Data) (M (@EventService.World Data) unit) :=
  EventService.on eventType listener ;;;
  ret (EventService.off eventType listener).



End UseEventOn.

Section UseBroadcastOn.

Context {Data : Type}.


End UseBroadcastOn.

End Hooks.

(** ** Sample listeners and callbacks *)

Module Examples.

(** Listeners of a local bus whose events carry a number: listener [1]
    throws, the others return; none calls the service back. *)
Definition first_throws
    : EventService.Listener → @EventService.EventPayload nat → @EventService.Body nat :=
  λ l _, {| EventService.script := [];
            EventService.completion :=
              if decide (l = 1) then Some (UserError "Listener error") else None |}.

(** Listener [1] registers listener [2] for [x] while it runs, listener
    [3] removes itself, listener [4] clears [x] and registers listener
    [5]; the others do nothing. *)
Definition reentrant
    : EventService.Listener → @EventService.EventPayload nat → @EventService.Body nat :=
  λ l _,
    match l with
    | 1 => {| EventService.script := [EventService.COn "x" 2];
              EventService.completion := None |}
    | 3 => {| EventService.script := [EventService.COff "x" 3];
              EventService.completion := None |}
    | 4 => {| EventService.script := [EventService.CClear "x"; EventService.COn "x" 5];
              EventService.completion := None |}
    | _ => {| EventService.script := []; EventService.completion := None |}
    end.

(** Listener [1] clears [x] while it runs; the others do nothing. *)
Definition clearing
    : EventService.Listener → @EventService.EventPayload nat → @EventService.Body nat :=
  λ l _,
    match l with
    | 1 => {| EventService.script := [EventService.CClear "x"];
              EventService.completion := None |}
    | _ => {| EventService.script := []; EventService.completion := None |}
    end.


(** A local bus on which listener [1] has been registered for [x]. *)
Definition one_on_x : @EventService.World nat :=
  (EventService.run_call first_throws 0 (EventService.COn "x" 1) EventService.init).2.

(** A local bus on which listeners [a] and [b] have been registered for
    [x], in this order. *)
Definition two_on_x (a b : EventService.Listener) : @EventService.World nat :=
  (EventService.on "x" b (EventService.on "x" a EventService.init).2).2.

(** Callbacks of a broadcast bus whose messages carry a number: callback
    [1] throws, the others return. *)
Definition first_callback_throws
    : BroadcastService.Callback → option nat → @BroadcastService.Body nat :=
  λ cb _, {| BroadcastService.script := [];
             BroadcastService.completion :=
               if decide (cb = 1) then Some (UserError "Callback error") else None |}.

(** A platform on which every number but [13] can be cloned. *)
Definition all_but_13 (d : nat) : bool := negb (d =? 13).


End Examples.

(** * Facts about the runtime *)

Module JsFacts.
Section Facts.

Context {W : Type}.

Lemma preserves_ret {A} (P : W → Prop) (a : A) : preserves P (ret a).
Proof. by intros w. Qed.

Lemma preserves_bind {A B} (P : W → Prop) (m : M W A) (k : A → M W B) :
  preserves P m → (∀ a, preserves P (k a)) → preserves P (bind m k).
Proof.
  intros Hm Hk w Hw. unfold bind. specialize (Hm w Hw).
  destruct (m w) as [[a| |] w']; simpl in *; [by apply Hk|done|done].
Qed.

Lemma preserves_try_catch {A} (P : W → Prop) (m : M W A) (h : exn → M W A) :
  preserves P m → (∀ e, preserves P (h e)) → preserves P (try_catch m h).
Proof.
  intros Hm Hh w Hw. unfold try_catch. specialize (Hm w Hw).
  destruct (m w) as [[a|e|] w']; simpl in *; [done|by apply Hh|done].
Qed.

Lemma preserves_for_each {A} (P : W → Prop) (f : A → M W unit) (l : list A) :
  (∀ x, preserves P (f x)) → preserves P (for_each f l).
Proof.
  intros Hf. induction l as [|x l IH]; simpl.
  - apply preserves_ret.
  - apply preserves_bind; [apply Hf|done].
Qed.

(** A guarded call returns unless it diverges. *)
Lemma try_catch_never_throws {A} (m : M W A) (h : exn → M W A) :
  (∀ e, never_throws (h e)) → never_throws (try_catch m h).
Proof.
  intros Hh w e. unfold try_catch. destruct (m w) as [[a|e'|] w'] eqn:Hm; [done| |done].
  apply Hh.
Qed.

End Facts.

(** Removing a value that does not occur. *)
Lemma filter_ne_absent {A} `{EqDecision A} (x : A) (l : list A) :
  x ∉ l → filter (λ y, y ≠ x) l = l.
Proof.
  induction l as [|y l IH]; intros Hx; [done|].
  apply not_elem_of_cons in Hx as [Hne Hx].
  rewrite filter_cons_True by done. by rewrite IH.
Qed.

(** Removing the value just appended. *)
Lemma filter_ne_snoc {A} `{EqDecision A} (x : A) (l : list A) :
  x ∉ l → filter (λ y, y ≠ x) (l ++ [x]) = l.
Proof.
  intros Hx. rewrite filter_app, filter_cons_False, filter_nil, app_nil_r by (by intros ?).
  by apply filter_ne_absent.
Qed.

End JsFacts.

(** * Facts about [EventService] *)

Module EventServiceFacts.
Import EventService JsFacts.
Section Facts.

Context {Data : Type}.

Abbreviation World := (@EventService.World Data).
Abbreviation EventPayload := (@EventService.EventPayload Data).
Abbreviation Call := (@EventService.Call Data).
Abbreviation Body := (@EventService.Body Data).

Variable behaviour : Listener → EventPayload → Body.

(** ** Set data *)

Lemma live_app (e1 e2 : SetData) : live (e1 ++ e2) = live e1 ++ live e2.
Proof. unfold live. apply omap_app. Qed.

Lemma elem_of_live (v : Listener) (entries : SetData) : v ∈ live entries ↔ Some v ∈ entries.
Proof.
  unfold live. rewrite list_elem_of_omap. split.
  - intros (x & Hx & Hv). simpl in Hv. by subst.
  - intros Hv. by exists (Some v).
Qed.

Lemma live_add (v : Listener) (entries : SetData) :
  live (SetData_add v entries) = if decide (v ∈ live entries) then live entries else live entries ++ [v].
Proof.
  unfold SetData_add. destruct (decide (Some v ∈ entries)) as [Hin|Hin].
  - rewrite decide_True; [done|]. by apply elem_of_live.
  - rewrite decide_False; [|by rewrite elem_of_live]. by rewrite live_app.
Qed.

Lemma live_delete (v : Listener) (entries : SetData) :
  live (SetData_delete v entries) = filter (λ x, x ≠ v) (live entries).
Proof.
  unfold SetData_delete, live. induction entries as [|[x|] entries IH]; [done| |exact IH].
  rewrite fmap_cons. destruct (decide (Some x = Some v)) as [Heq|Hne].
  - injection Heq as ->. cbn [omap list_omap id]. rewrite IH.
    rewrite filter_cons_False; [done|]. by intros [].
  - cbn [omap list_omap id mbind option_bind]. rewrite IH.
    rewrite filter_cons_True; [done|congruence].
Qed.


Lemma SetData_delete_absent (v : Listener) (entries : SetData) :
  v ∉ live entries → SetData_delete v entries = entries.
Proof.
  rewrite elem_of_live. intros Hn. unfold SetData_delete.
  induction entries as [|e entries IH]; simpl; [done|].
  rewrite decide_False; [|set_solver]. f_equal. apply IH. set_solver.
Qed.

Lemma NoDup_live_add (v : Listener) (entries : SetData) :
  NoDup (live entries) → NoDup (live (SetData_add v entries)).
Proof.
  intros Hnd. rewrite live_add. case_decide; [done|].
  apply NoDup_app. split_and!; [done| |apply NoDup_singleton].
  intros x Hx Hx'. apply list_elem_of_singleton in Hx'. by subst.
Qed.

Lemma NoDup_live_delete (v : Listener) (entries : SetData) :
  NoDup (live entries) → NoDup (live (SetData_delete v entries)).
Proof. intros Hnd. rewrite live_delete. by apply NoDup_filter. Qed.

(** ** Reading the store after a write *)

Lemma entries_of_set_sets (s s' : loc) (X : SetData) (w : World) :
  entries_of s' (set_sets <[s := X]> w) = if decide (s = s') then X else entries_of s' w.
Proof.
  unfold entries_of, set_sets. simpl. rewrite lookup_insert.
  by case_decide.
Qed.

(** ** What each method computes *)

Lemma on_known (n : string) (l : Listener) (s : loc) (w : World) :
  listeners w !! n = Some s →
  on n l w = (Normal tt, set_sets <[s := SetData_add l (entries_of s w)]> w).
Proof.
  intros Hs. unfold on, bind, Map_has, Map_get, gets, ret, Set_add, modify. simpl.
  rewrite Hs. rewrite bool_decide_eq_true_2; [|by eexists]. simpl. by rewrite Hs.
Qed.

Lemma on_unknown (n : string) (l : Listener) (w : World) :
  listeners w !! n = None →
  on n l w =
    (Normal tt,
     {| listeners := <[n := next_loc w]> (listeners w);
        sets := <[next_loc w := [Some l]]> (sets w);
        next_loc := S (next_loc w); console := console w; calls := calls w |}).
Proof.
  intros Hs. unfold on, bind, Map_has, Map_get, Map_set, gets, ret, Set_add, modify, new_Set.
  simpl. rewrite Hs. rewrite bool_decide_eq_false_2; [|by intros [? ?]]. simpl.
  rewrite lookup_insert_eq. unfold set_sets, entries_of. simpl.
  rewrite lookup_insert_eq. simpl. by rewrite insert_insert_eq.
Qed.

Lemma off_unknown (n : string) (l : Listener) (w : World) :
  listeners w !! n = None → off n l w = (Normal tt, w).
Proof. intros Hs. unfold off, bind, Map_get, gets, ret. simpl. by rewrite Hs. Qed.

Lemma off_known (n : string) (l : Listener) (s : loc) (w : World) :
  listeners w !! n = Some s →
  off n l w =
    (Normal tt,
     let w' := set_sets <[s := SetData_delete l (entries_of s w)]> w in
     if length (live (SetData_delete l (entries_of s w))) =? 0
     then set_listeners (delete n) w' else w').
Proof.
  intros Hs. unfold off, bind, Map_get, Map_delete, Set_delete, Set_size, gets, ret, modify.
  simpl. rewrite Hs. rewrite entries_of_set_sets, decide_True by done.
  by destruct (length _ =? 0).
Qed.

Lemma on_normal (n : string) (l : Listener) (w : World) : (on n l w).1 = Normal tt.
Proof.
  destruct (listeners w !! n) as [s|] eqn:Hs.
  - by rewrite (on_known _ _ _ _ Hs).
  - by rewrite (on_unknown _ _ _ Hs).
Qed.

Lemma off_normal (n : string) (l : Listener) (w : World) : (off n l w).1 = Normal tt.
Proof.
  destruct (listeners w !! n) as [s|] eqn:Hs.
  - by rewrite (off_known _ _ _ _ Hs).
  - by rewrite (off_unknown _ _ _ Hs).
Qed.

(** ** The shape of the store is kept by every method *)

Lemma elem_of_live_add (v : Listener) (entries : SetData) : v ∈ live (SetData_add v entries).
Proof. rewrite live_add. case_decide; [done|]. set_solver. Qed.

Lemma length_pos_elem_of {A} (x : A) (l : list A) : x ∈ l → 0 < length l.
Proof. destruct l; [by intros ?%elem_of_nil|simpl; lia]. Qed.

Lemma wf_init : wf (@init Data).
Proof.
  split.
  - intros n s. simpl. by rewrite lookup_empty.
  - intros n s. simpl. by rewrite lookup_empty.
  - intros n1 n2 s. simpl. by rewrite lookup_empty.
  - intros s. unfold entries_of. simpl. rewrite lookup_empty. constructor.
Qed.

Lemma wf_on (n : string) (l : Listener) : preserves (@wf Data) (on n l).
Proof.
  intros w [Halloc Hne Hinj Hnd].
  destruct (listeners w !! n) as [s|] eqn:Hs.
  - rewrite (on_known _ _ _ _ Hs). simpl. split.
    + done.
    + intros n' s' Hn'. simpl in Hn'. rewrite entries_of_set_sets. case_decide.
      * eapply length_pos_elem_of, elem_of_live_add.
      * by eapply Hne.
    + done.
    + intros s'. rewrite entries_of_set_sets. case_decide; [|done].
      by apply NoDup_live_add.
  - rewrite (on_unknown _ _ _ Hs). simpl. split; simpl.
    + intros n' s'. rewrite lookup_insert. case_decide.
      * intros [= <-]. lia.
      * intros ?%Halloc. lia.
    + intros n' s'. simpl. rewrite lookup_insert. unfold entries_of. simpl. case_decide.
      * intros [= <-]. rewrite lookup_insert_eq. simpl. lia.
      * intros Hn'. pose proof (Halloc _ _ Hn'). rewrite lookup_insert_ne by lia.
        by eapply Hne.
    + intros n1 n2 s. rewrite !lookup_insert. repeat case_decide; subst; try done.
      * intros [= <-] ?%Halloc. lia.
      * intros ?%Halloc [= <-]. lia.
      * apply Hinj.
    + intros s. unfold entries_of. simpl. rewrite lookup_insert. case_decide.
      * simpl. apply NoDup_singleton.
      * apply Hnd.
Qed.

Lemma wf_off (n : string) (l : Listener) : preserves (@wf Data) (off n l).
Proof.
  intros w Hwf. pose proof Hwf as [Halloc Hne Hinj Hnd].
  destruct (listeners w !! n) as [s|] eqn:Hs.
  2: { by rewrite (off_unknown _ _ _ Hs). }
  rewrite (off_known _ _ _ _ Hs). simpl.
  destruct (length _ =? 0) eqn:Hlen.
  - split; simpl.
    + intros n' s'. rewrite lookup_delete. case_decide; [done|]. apply Halloc.
    + intros n' s'. simpl. rewrite lookup_delete. case_decide; [done|]. intros Hn'.
      change (0 < length (live (entries_of s'
                (set_sets <[s:=SetData_delete l (entries_of s w)]> w)))).
      rewrite entries_of_set_sets. case_decide.
      * subst s'. exfalso. eauto.
      * by eapply Hne.
    + intros n1 n2 s'. rewrite !lookup_delete. repeat case_decide; try done. apply Hinj.
    + intros s'. change (NoDup (live (entries_of s'
                (set_sets <[s:=SetData_delete l (entries_of s w)]> w)))).
      rewrite entries_of_set_sets. case_decide; [|done]. by apply NoDup_live_delete.
  - apply Nat.eqb_neq in Hlen. split; simpl.
    + done.
    + intros n' s' Hn'. simpl in Hn'. rewrite entries_of_set_sets. case_decide.
      * lia.
      * by eapply Hne.
    + done.
    + intros s'. rewrite entries_of_set_sets. case_decide; [|done]. by apply NoDup_live_delete.
Qed.

Lemma wf_clear (n : string) : preserves wf (@clear Data n).
Proof.
  intros w [Halloc Hne Hinj Hnd]. split; simpl.
  - intros n' s'. rewrite lookup_delete. case_decide; [done|]. apply Halloc.
  - intros n' s'. simpl. rewrite lookup_delete. case_decide; [done|]. apply Hne.
  - intros n1 n2 s'. rewrite !lookup_delete. repeat case_decide; try done. apply Hinj.
  - done.
Qed.

Lemma wf_clearAll : preserves wf (@clearAll Data).
Proof.
  intros w [Halloc Hne Hinj Hnd]. split; simpl.
  - intros n' s'. by rewrite lookup_empty.
  - intros n' s'. simpl. by rewrite lookup_empty.
  - intros n1 n2 s'. by rewrite lookup_empty.
  - done.
Qed.

(** ** Properties kept along a dispatch *)

Lemma preserves_Set_forEach_from (P : World → Prop) (fuel : nat) (s : loc)
    (cb : Listener → M World unit) (i : nat) :
  (∀ v, preserves P (cb v)) → preserves P (Set_forEach_from fuel s cb i).
Proof.
  intros Hcb. revert i. induction fuel as [|fuel IH]; intros i w Hw; simpl.
  - by destruct (entries_of s w !! i).
  - destruct (entries_of s w !! i) as [[v|]|]; [|by apply IH|done].
    by apply (preserves_bind P (cb v) (λ _, Set_forEach_from fuel s cb (S i))).
Qed.

Lemma preserves_emit_with (P : World → Prop)
    (call : Listener → EventPayload → M World unit) (fuel : nat) (n : string) (d : Data) :
  (∀ l p, preserves P (call l p)) →
  (∀ msg e, preserves P (console_error msg e)) →
  preserves P (emit_with call fuel n d).
Proof.
  intros Hcall Hlog w Hw. unfold emit_with, bind, Map_get, gets. simpl.
  destruct (listeners w !! n) as [s|]; [|done].
  apply (preserves_Set_forEach_from P fuel s _ 0); [|done].
  intros v. by apply preserves_try_catch.
Qed.

Lemma wf_same_store (w1 w2 : World) :
  listeners w1 = listeners w2 → sets w1 = sets w2 → next_loc w1 = next_loc w2 →
  wf w1 → wf w2.
Proof.
  intros Hl Hs Hn [Halloc Hne Hinj Hnd]. split.
  - intros n s. rewrite <-Hl, <-Hn. apply Halloc.
  - intros n s. unfold entries_of. rewrite <-Hl, <-Hs. apply Hne.
  - intros n1 n2 s. rewrite <-Hl. apply Hinj.
  - intros s. unfold entries_of. rewrite <-Hs. apply Hnd.
Qed.

Lemma wf_console_error (msg : string) (e : exn) : preserves wf (@console_error Data msg e).
Proof. intros w. by apply wf_same_store. Qed.

Lemma wf_record_call (l : Listener) (p : EventPayload) :
  preserves wf (record_call l p).
Proof. intros w. by apply wf_same_store. Qed.

Lemma preserves_call_listener (P : World → Prop) (run : Call → M World unit)
    (l : Listener) (p : EventPayload) :
  preserves P (record_call l p) → (∀ c, preserves P (run c)) →
  preserves P (call_listener behaviour run l p).
Proof.
  intros Hrec Hrun. unfold call_listener.
  apply preserves_bind; [done|]. intros _.
  apply preserves_bind; [by apply preserves_for_each|]. intros _.
  destruct (completion _); by intros w.
Qed.

Lemma wf_run_call (fuel : nat) (c : Call) : preserves wf (run_call behaviour fuel c).
Proof.
  revert c. induction fuel as [|fuel IH]; intros c; destruct c; simpl;
    try first [apply wf_on | apply wf_off | apply wf_clear | apply wf_clearAll].
  - by intros w.
  - apply preserves_emit_with; [|apply wf_console_error].
    intros l p. apply preserves_call_listener; [apply wf_record_call|apply IH].
Qed.

Lemma reachable_wf (w : World) : reachable behaviour w → wf w.
Proof.
  induction 1 as [|w fuel c _ IH]; [apply wf_init|by apply wf_run_call].
Qed.

(** ** Introspection *)

Lemma elem_of_eventTypes (n : string) (w : World) :
  n ∈ eventTypes w ↔ is_Some (listeners w !! n).
Proof.
  unfold eventTypes. rewrite list_elem_of_fmap. split.
  - intros ([k v] & -> & Hkv%elem_of_map_to_list). by exists v.
  - intros [v Hv]. exists (n, v). split; [done|]. by apply elem_of_map_to_list.
Qed.

Lemma listenerCount_registered (n : string) (w : World) :
  listenerCount n w = length (registered n w).
Proof. unfold listenerCount, registered. by destruct (listeners w !! n). Qed.

(** ** Dispatch to listeners that call nothing back *)

Lemma logged_nil (p : EventPayload) (w : World) : logged behaviour p [] w = w.
Proof. destruct w. unfold logged. simpl. by rewrite !app_nil_r. Qed.

Lemma logged_cons (p : EventPayload) (l : Listener) (ls : list Listener) (w : World) :
  logged behaviour p ls (logged behaviour p [l] w) = logged behaviour p (l :: ls) w.
Proof.
  unfold logged, new_calls, new_errors. simpl. rewrite <-!app_assoc. simpl.
  by destruct (completion (behaviour l p)).
Qed.

Section Dispatch.
Variable run : Call → M World unit.
Variables (n : string) (d : Data).

Abbreviation payload := {| type := n; data := d |}.
Abbreviation cb := (guarded_call (call_listener behaviour run) n payload).

Lemma callback_quiet (l : Listener) (w : World) :
  quiet behaviour l → cb l w = (Normal tt, logged behaviour payload [l] w).
Proof.
  intros Hq. unfold guarded_call, try_catch, call_listener, bind, record_call, modify.
  simpl.
  rewrite (Hq payload). simpl. unfold logged, new_errors, new_calls. simpl.
  destruct (completion (behaviour l payload)); simpl; [done|].
  unfold ret. by rewrite app_nil_r.
Qed.

Lemma forEach_quiet (s : loc) (rest pre : SetData) (fuel : nat) (w : World) :
  entries_of s w = pre ++ rest →
  length rest ≤ fuel →
  Forall (quiet behaviour) (live rest) →
  Set_forEach_from fuel s cb (length pre) w
  = (Normal tt, logged behaviour payload (live rest) w).
Proof.
  revert pre fuel w. induction rest as [|e rest IH]; intros pre fuel w HE Hfuel Hq.
  - assert (entries_of s w !! length pre = None) as Hnone.
    { apply lookup_ge_None. rewrite HE, length_app. simpl. lia. }
    destruct fuel; simpl; rewrite Hnone; by rewrite logged_nil.
  - assert (entries_of s w !! length pre = Some e) as Hsome.
    { rewrite HE. by apply list_lookup_middle. }
    destruct fuel as [|fuel]; [simpl in Hfuel; lia|].
    simpl. rewrite Hsome. simpl in Hfuel.
    destruct e as [v|].
    + change (live (Some v :: rest)) with (v :: live rest) in *.
      apply Forall_cons in Hq as [Hv Hq].
      unfold bind. rewrite (callback_quiet v w Hv).
      replace (S (length pre)) with (length (pre ++ [Some v]))
        by (rewrite length_app; simpl; lia).
      rewrite IH; [by rewrite logged_cons| |lia|done].
      change (entries_of s (logged behaviour payload [v] w)) with (entries_of s w).
      by rewrite HE, <-app_assoc.
    + change (live (None :: rest)) with (live rest) in *.
      replace (S (length pre)) with (length (pre ++ [None]))
        by (rewrite length_app; simpl; lia).
      apply IH; [|lia|done]. by rewrite HE, <-app_assoc.
Qed.

Lemma emit_with_quiet (fuel : nat) (s : loc) (w : World) :
  listeners w !! n = Some s →
  length (entries_of s w) ≤ fuel →
  Forall (quiet behaviour) (registered n w) →
  emit_with (call_listener behaviour run) fuel n d w
  = (Normal tt, logged behaviour payload (registered n w) w).
Proof.
  intros Hs Hfuel Hq. unfold registered in *. rewrite Hs in *.
  unfold emit_with, bind, Map_get, gets. simpl. rewrite Hs.
  by apply (forEach_quiet s (entries_of s w) [] fuel w).
Qed.

Lemma emit_with_unknown (fuel : nat) (w : World) :
  listeners w !! n = None →
  emit_with (call_listener behaviour run) fuel n d w = (Normal tt, w).
Proof. intros Hs. unfold emit_with, bind, Map_get, gets. simpl. by rewrite Hs. Qed.

(** With enough fuel the dispatch returns, having called every
    registered listener once, in insertion order. *)
Lemma emit_with_quiet_returns (w : World) :
  Forall (quiet behaviour) (registered n w) →
  ∃ fuel0, ∀ fuel, fuel0 ≤ fuel →
    emit_with (call_listener behaviour run) fuel n d w
    = (Normal tt, logged behaviour payload (registered n w) w).
Proof.
  intros Hq. destruct (listeners w !! n) as [s|] eqn:Hs.
  - exists (length (entries_of s w)). intros fuel Hfuel.
    by apply (emit_with_quiet fuel s).
  - exists 0. intros fuel _. rewrite emit_with_unknown by done.
    unfold registered. rewrite Hs. by rewrite logged_nil.
Qed.
End Dispatch.

Lemma emit_quiet_returns (n : string) (d : Data) (w : World) :
  Forall (quiet behaviour) (registered n w) →
  ∃ fuel0, ∀ fuel, fuel0 ≤ fuel →
    emit behaviour fuel n d w
    = (Normal tt, logged behaviour {| type := n; data := d |} (registered n w) w).
Proof.
  intros Hq. destruct (listeners w !! n) as [s|] eqn:Hs.
  - exists (length (entries_of s w)). intros fuel Hfuel.
    by apply (emit_with_quiet _ n d fuel s).
  - exists 0. intros fuel _. unfold emit. rewrite emit_with_unknown by done.
    unfold registered. rewrite Hs. by rewrite logged_nil.
Qed.

(** ** No exception leaves [emit] *)




(** ** A throwing listener changes nothing but the console *)













(** ** Registered listeners after [on] and [off] *)

Lemma registered_on (n : string) (l : Listener) (w : World) :
  registered n (on n l w).2
  = if decide (l ∈ registered n w) then registered n w else registered n w ++ [l].
Proof.
  unfold registered at 1. destruct (listeners w !! n) as [s|] eqn:Hs.
  - rewrite (on_known _ _ _ _ Hs). simpl. rewrite Hs.
    rewrite entries_of_set_sets, decide_True by done.
    unfold registered. rewrite Hs. apply live_add.
  - rewrite (on_unknown _ _ _ Hs). simpl. rewrite lookup_insert_eq.
    unfold entries_of. simpl. rewrite lookup_insert_eq.
    unfold registered. rewrite Hs. by rewrite decide_False by apply not_elem_of_nil.
Qed.

Lemma registered_on_other (n n' : string) (l : Listener) (w : World) :
  wf w → n ≠ n' → registered n' (on n l w).2 = registered n' w.
Proof.
  intros Hwf Hne. unfold registered. destruct (listeners w !! n) as [s|] eqn:Hs.
  - rewrite (on_known _ _ _ _ Hs). simpl.
    destruct (listeners w !! n') as [s'|] eqn:Hs'; [|done].
    rewrite entries_of_set_sets, decide_False; [done|].
    intros ->. by destruct Hne; eapply (wf_inj w Hwf).
  - rewrite (on_unknown _ _ _ Hs). simpl. rewrite lookup_insert_ne by done.
    destruct (listeners w !! n') as [s'|] eqn:Hs'; [|done].
    unfold entries_of. simpl. rewrite lookup_insert_ne; [done|].
    pose proof (wf_alloc w Hwf _ _ Hs'). lia.
Qed.

Lemma registered_off (n : string) (l : Listener) (w : World) :
  registered n (off n l w).2 = filter (λ x, x ≠ l) (registered n w).
Proof.
  unfold registered. destruct (listeners w !! n) as [s|] eqn:Hs.
  - rewrite (off_known _ _ _ _ Hs). simpl. rewrite <-live_delete.
    destruct (length _ =? 0) eqn:Hlen.
    + simpl. rewrite lookup_delete_eq. apply Nat.eqb_eq in Hlen.
      by destruct (live (SetData_delete l (entries_of s w))).
    + simpl. rewrite Hs. by rewrite entries_of_set_sets, decide_True.
  - rewrite (off_unknown _ _ _ Hs). simpl. by rewrite Hs.
Qed.

Lemma on_logs (n : string) (l : Listener) (w : World) :
  calls (on n l w).2 = calls w ∧ console (on n l w).2 = console w.
Proof.
  destruct (listeners w !! n) as [s|] eqn:Hs.
  - by rewrite (on_known _ _ _ _ Hs).
  - by rewrite (on_unknown _ _ _ Hs).
Qed.

Lemma off_logs (n : string) (l : Listener) (w : World) :
  calls (off n l w).2 = calls w ∧ console (off n l w).2 = console w.
Proof.
  destruct (listeners w !! n) as [s|] eqn:Hs.
  - rewrite (off_known _ _ _ _ Hs). simpl. by destruct (length _ =? 0).
  - by rewrite (off_unknown _ _ _ Hs).
Qed.





(** ** Counting invocations *)

Lemma length_filter_new_calls (l : Listener) (p : EventPayload) (ls : list Listener) :
  length (filter (λ c : Listener * EventPayload, c.1 = l) (new_calls p ls))
  = length (filter (λ x, x = l) ls).
Proof.
  unfold new_calls. induction ls as [|x ls IH]; [done|]. rewrite fmap_cons.
  destruct (decide (x = l)) as [->|Hne].
  - rewrite !filter_cons_True by done. simpl. by rewrite IH.
  - by rewrite !filter_cons_False by done.
Qed.

Lemma invocations_logged (l : Listener) (p : EventPayload) (ls : list Listener) (w : World) :
  invocations l (logged behaviour p ls w)
  = invocations l w + length (filter (λ x, x = l) ls).
Proof.
  unfold invocations, logged. simpl.
  by rewrite filter_app, length_app, length_filter_new_calls.
Qed.

Lemma count_absent (l : Listener) (ls : list Listener) :
  l ∉ ls → length (filter (λ x, x = l) ls) = 0.
Proof.
  induction ls as [|x ls IH]; [done|]. intros [Hne Hl]%not_elem_of_cons.
  rewrite filter_cons_False by congruence. by apply IH.
Qed.

Lemma count_NoDup (l : Listener) (ls : list Listener) :
  NoDup ls → l ∈ ls → length (filter (λ x, x = l) ls) = 1.
Proof.
  induction ls as [|x ls IH]; [by intros _ ?%elem_of_nil|].
  intros [Hx Hnd]%NoDup_cons Hl. destruct (decide (x = l)) as [->|Hne].
  - rewrite filter_cons_True by done. simpl. by rewrite count_absent.
  - rewrite filter_cons_False by done. apply IH; [done|].
    apply elem_of_cons in Hl as [?|?]; [congruence|done].
Qed.

Lemma registered_NoDup (n : string) (w : World) : wf w → NoDup (registered n w).
Proof.
  intros Hwf. unfold registered. destruct (listeners w !! n); [|constructor].
  apply (wf_nodup w Hwf).
Qed.


(** ** The claims about the local bus *)




(** C6. In every state reachable from a fresh service by calls of [on],
    [off], [emit], [clear] and [clearAll] (listeners included, which may
    make such calls themselves), every key of the listeners map maps to a
    set that is not empty; and a name is among [eventTypes()] exactly when
    its [listenerCount] is positive. *)
Theorem C6_registry_has_no_empty_entry (w : World) :
  reachable behaviour w →
  no_empty_entry w ∧ ∀ n, n ∈ eventTypes w ↔ 0 < listenerCount n w.
Proof.
  intros Hreach. pose proof (reachable_wf _ Hreach) as Hwf.
  split; [apply (wf_nonempty w Hwf)|].
  intros n. rewrite elem_of_eventTypes. unfold listenerCount. split.
  - intros [s Hs]. rewrite Hs. by apply (wf_nonempty w Hwf n).
  - destruct (listeners w !! n); [by eexists|lia].
Qed.

(** * Further properties of the local bus *)

(** ** The registry across [clear], [clearAll], [on] and [off] *)

Lemma registered_clear (n n' : string) (w : World) :
  registered n' (clear n w).2 = if decide (n' = n) then [] else registered n' w.
Proof.
  unfold registered, clear, Map_delete, modify. simpl. case_decide as Hn.
  - subst n'. by rewrite lookup_delete_eq.
  - by rewrite lookup_delete_ne.
Qed.

Lemma registered_off_other (n n' : string) (l : Listener) (w : World) :
  wf w → n ≠ n' → registered n' (off n l w).2 = registered n' w.
Proof.
  intros Hwf Hne. unfold registered. destruct (listeners w !! n) as [s|] eqn:Hs.
  2: { by rewrite (off_unknown _ _ _ Hs). }
  rewrite (off_known _ _ _ _ Hs). simpl.
  assert (∀ s', listeners w !! n' = Some s' →
            entries_of s' (set_sets <[s := SetData_delete l (entries_of s w)]> w)
            = entries_of s' w) as Hother.
  { intros s' Hs'. rewrite entries_of_set_sets, decide_False; [done|].
    intros ->. by destruct Hne; eapply (wf_inj w Hwf). }
  destruct (length _ =? 0); simpl.
  - rewrite lookup_delete_ne by done.
    destruct (listeners w !! n') as [s'|] eqn:Hs'; [|done]. by rewrite <-(Hother s').
  - destruct (listeners w !! n') as [s'|] eqn:Hs'; [|done]. by rewrite <-(Hother s').
Qed.

Lemma listeners_off_on (n : string) (l : Listener) (w : World) :
  wf w → l ∉ registered n w → listeners (off n l (on n l w).2).2 = listeners w.
Proof.
  intros Hwf Hl. unfold registered in Hl.
  destruct (listeners w !! n) as [s|] eqn:Hs.
  - rewrite (on_known _ _ _ _ Hs).
    set (w1 := set_sets _ w).
    assert (listeners w1 !! n = Some s) as Hs1 by done.
    rewrite (off_known _ _ _ _ Hs1). simpl.
    assert (live (SetData_delete l (entries_of s w1)) = live (entries_of s w)) as Hlive.
    { unfold w1. rewrite entries_of_set_sets, decide_True by done.
      rewrite live_delete, live_add, decide_False by done.
      by apply filter_ne_snoc. }
    rewrite Hlive. pose proof (wf_nonempty w Hwf _ _ Hs) as Hpos.
    destruct (length (live (entries_of s w)) =? 0) eqn:Hlen; [|done].
    apply Nat.eqb_eq in Hlen. lia.
  - rewrite (on_unknown _ _ _ Hs).
    set (w1 := Build_World _ _ _ _ _).
    assert (listeners w1 !! n = Some (next_loc w)) as Hs1.
    { unfold w1. simpl. by rewrite lookup_insert_eq. }
    rewrite (off_known _ _ _ _ Hs1). simpl.
    assert (entries_of (next_loc w) w1 = [Some l]) as ->.
    { unfold entries_of, w1. simpl. by rewrite lookup_insert_eq. }
    unfold SetData_delete. simpl. rewrite decide_True by done. simpl.
    by rewrite delete_insert_id.
Qed.

Lemma registered_off_on (n n' : string) (l : Listener) (w : World) :
  wf w → l ∉ registered n w → registered n' (off n l (on n l w).2).2 = registered n' w.
Proof.
  intros Hwf Hl. destruct (decide (n = n')) as [<-|Hne].
  - rewrite registered_off, registered_on, decide_False by done.
    by apply filter_ne_snoc.
  - rewrite registered_off_other; [by apply registered_on_other| |done].
    by apply wf_on.
Qed.

Lemma eventTypes_same_keys (w1 w2 : World) :
  listeners w1 = listeners w2 → eventTypes w1 = eventTypes w2.
Proof. unfold eventTypes. by intros ->. Qed.

Lemma length_filter_ne (l : Listener) (ls : list Listener) :
  NoDup ls → l ∈ ls → length (filter (λ x, x ≠ l) ls) = length ls - 1.
Proof.
  induction 1 as [|x ls Hx Hnd IH]; intros Hl; [by apply elem_of_nil in Hl|].
  destruct (decide (x = l)) as [->|Hne].
  - rewrite filter_cons_False by (by intros ?). simpl. rewrite Nat.sub_0_r.
    f_equal. by apply filter_ne_absent.
  - rewrite filter_cons_True by done. simpl.
    apply elem_of_cons in Hl as [?|Hl]; [congruence|].
    rewrite IH by done. apply length_pos_elem_of in Hl. lia.
Qed.

Lemma count_zero_unknown (n : string) (w : World) :
  wf w → listenerCount n w = 0 → listeners w !! n = None.
Proof.
  intros Hwf Hc. unfold listenerCount in Hc.
  destruct (listeners w !! n) as [s|] eqn:Hs; [|done].
  pose proof (wf_nonempty w Hwf _ _ Hs). lia.
Qed.

(** X1. [clear(n)] returns and forgets the listeners of [n]: its count is
    [0], it is no event type any more and an [emit(n, ..)] that follows
    calls nobody and changes nothing; the listeners of every other event
    stay as they were, and nothing is called or logged. *)
Theorem clear_forgets_one_event (n : string) (w : World) :
  let w' := (clear n w).2 in
  (clear n w).1 = Normal tt ∧
  registered n w' = [] ∧
  listenerCount n w' = 0 ∧
  (n ∉ eventTypes w') ∧
  (∀ n', n' ≠ n →
     registered n' w' = registered n' w ∧
     listenerCount n' w' = listenerCount n' w ∧
     (n' ∈ eventTypes w' ↔ n' ∈ eventTypes w)) ∧
  calls w' = calls w ∧ console w' = console w ∧
  ∀ fuel d, emit behaviour fuel n d w' = (Normal tt, w').
Proof.
  intros w'. unfold w'.
  assert (listeners (clear n w).2 !! n = None) as Hnone.
  { unfold clear, Map_delete, modify. simpl. apply lookup_delete_eq. }
  split_and!; try done.
  - by rewrite registered_clear, decide_True.
  - by rewrite listenerCount_registered, registered_clear, decide_True.
  - rewrite elem_of_eventTypes, Hnone. by intros [? ?].
  - intros n' Hne. split_and!.
    + by rewrite registered_clear, decide_False.
    + by rewrite !listenerCount_registered, registered_clear, decide_False.
    + rewrite !elem_of_eventTypes. unfold clear, Map_delete, modify. simpl.
      by rewrite lookup_delete_ne.
  - intros fuel d. unfold emit. by apply emit_with_unknown.
Qed.

(** X2. [clearAll()] returns and leaves no event type at all: every count
    is [0], an [emit] of any event that follows calls nobody and changes
    nothing, and nothing is called or logged by [clearAll] itself. *)
Theorem clearAll_forgets_every_event (w : World) :
  let w' := (clearAll w).2 in
  (clearAll w).1 = Normal tt ∧
  eventTypes w' = [] ∧
  (∀ n, registered n w' = [] ∧ listenerCount n w' = 0) ∧
  calls w' = calls w ∧ console w' = console w ∧
  ∀ fuel n d, emit behaviour fuel n d w' = (Normal tt, w').
Proof.
  intros w'. unfold w', clearAll, Map_clear, modify. simpl. by split_and!.
Qed.

(** X3. In a reachable state, registering a listener that is not yet
    registered for [n] and removing it again gives back the registry:
    the same keys, and under every event the same listeners in the same
    order; nothing is called or logged on the way. *)
Theorem off_undoes_on (n : string) (l : Listener) (w : World) :
  reachable behaviour w →
  l ∉ registered n w →
  let w' := (off n l (on n l w).2).2 in
  listeners w' = listeners w ∧
  eventTypes w' = eventTypes w ∧
  (∀ n', registered n' w' = registered n' w ∧ listenerCount n' w' = listenerCount n' w) ∧
  calls w' = calls w ∧ console w' = console w.
Proof.
  intros Hreach Hl w'. pose proof (reachable_wf _ Hreach) as Hwf. unfold w'.
  split_and!.
  - by apply listeners_off_on.
  - by apply eventTypes_same_keys, listeners_off_on.
  - intros n'. rewrite !listenerCount_registered.
    by rewrite registered_off_on.
  - destruct (off_logs n l (on n l w).2) as [-> _]. by destruct (on_logs n l w) as [-> _].
  - destruct (off_logs n l (on n l w).2) as [_ ->]. by destruct (on_logs n l w) as [_ ->].
Qed.

(** X4. In a reachable state, [on(n, l)] raises [listenerCount(n)] by one
    when [l] was not registered for [n] and leaves it alone when it was;
    [off(n, l)] lowers it by one when [l] was registered and leaves it
    alone when it was not. *)
Theorem listenerCount_after_on_off (n : string) (l : Listener) (w : World) :
  reachable behaviour w →
  listenerCount n (on n l w).2
  = (if decide (l ∈ registered n w) then listenerCount n w else S (listenerCount n w)) ∧
  listenerCount n (off n l w).2
  = (if decide (l ∈ registered n w) then listenerCount n w - 1 else listenerCount n w).
Proof.
  intros Hreach. pose proof (reachable_wf _ Hreach) as Hwf.
  rewrite !listenerCount_registered, registered_on, registered_off. split.
  - case_decide; [done|]. rewrite length_app. simpl. lia.
  - case_decide as Hl.
    + apply length_filter_ne; [by apply registered_NoDup|done].
    + f_equal. by apply filter_ne_absent.
Qed.

(** X5. In a reachable state, [on(n, l)] and [off(n, l)] leave the
    listeners of every other event as they were, in the same order. *)
Theorem on_off_leave_other_events (n n' : string) (l : Listener) (w : World) :
  reachable behaviour w →
  n' ≠ n →
  registered n' (on n l w).2 = registered n' w ∧
  registered n' (off n l w).2 = registered n' w ∧
  listenerCount n' (on n l w).2 = listenerCount n' w ∧
  listenerCount n' (off n l w).2 = listenerCount n' w.
Proof.
  intros Hreach Hne. pose proof (reachable_wf _ Hreach) as Hwf.
  rewrite !listenerCount_registered.
  rewrite registered_on_other, registered_off_other by done. done.
Qed.

(** X6. In a reachable state, [emit] of an event whose [listenerCount] is
    [0] returns at once, whatever the step budget, and changes nothing:
    nobody is called and nothing is logged. *)
Theorem emit_without_listeners (n : string) (d : Data) (fuel : nat) (w : World) :
  reachable behaviour w →
  listenerCount n w = 0 →
  emit behaviour fuel n d w = (Normal tt, w).
Proof.
  intros Hreach Hc. pose proof (reachable_wf _ Hreach) as Hwf.
  unfold emit. apply emit_with_unknown. by apply count_zero_unknown.
Qed.

(** X7. When the listeners registered for [n] do not call back into the
    service, [emit(n, d)] leaves the registry as it is (same map, same
    sets), calls no listener that is not registered for [n], and writes
    one console line, headed by the message that names [n], for each
    listener that throws, in the order of the listeners. *)
Theorem emit_touches_its_event_only (n : string) (d : Data) (w : World) :
  Forall (quiet behaviour) (registered n w) →
  ∃ fuel0, ∀ fuel, fuel0 ≤ fuel →
    let payload := {| type := n; data := d |} in
    let w' := (emit behaviour fuel n d w).2 in
    listeners w' = listeners w ∧ sets w' = sets w ∧
    (∀ n', registered n' w' = registered n' w) ∧
    (∀ l, l ∉ registered n w → invocations l w' = invocations l w) ∧
    console w'
    = console w ++
      omap (λ l, (λ e, (listener_error_message n, e)) <$> completion (behaviour l payload))
           (registered n w).
Proof.
  intros Hq. destruct (emit_quiet_returns n d w Hq) as [fuel0 Hemit].
  exists fuel0. intros fuel Hfuel payload w'. unfold w'. rewrite (Hemit fuel Hfuel).
  split_and!; try done.
  intros l Hl. simpl. rewrite invocations_logged, count_absent by done. lia.
Qed.

(** ** Listeners that change the registry while [emit] runs *)

Section Reentrant.
Variable run : Call → M World unit.
Variables (n : string) (d : Data).

Abbreviation payload := {| type := n; data := d |}.
Abbreviation cb := (guarded_call (call_listener behaviour run) n payload).

(** The walk over entries whose listeners call nothing back. *)
Lemma forEach_quiet_prefix (s : loc) (mid pre rest : SetData) (k : nat) (w : World) :
  entries_of s w = pre ++ mid ++ rest →
  Forall (quiet behaviour) (live mid) →
  Set_forEach_from (length mid + k) s cb (length pre) w
  = Set_forEach_from k s cb (length (pre ++ mid)) (logged behaviour payload (live mid) w).
Proof.
  revert pre w. induction mid as [|e mid IH]; intros pre w HE Hq.
  - simpl. by rewrite app_nil_r, logged_nil.
  - assert (entries_of s w !! length pre = Some e) as Hsome.
    { rewrite HE. by apply list_lookup_middle. }
    cbn [length Nat.add Set_forEach_from]. rewrite Hsome.
    replace (pre ++ e :: mid) with ((pre ++ [e]) ++ mid) by by rewrite <-app_assoc.
    replace (S (length pre)) with (length (pre ++ [e]))
      by (rewrite length_app; simpl; lia).
    destruct e as [v|].
    + change (live (Some v :: mid)) with (v :: live mid) in *.
      apply Forall_cons in Hq as [Hv Hq].
      unfold bind. rewrite (callback_quiet run n d v w Hv).
      rewrite IH; [by rewrite logged_cons| |done].
      change (entries_of s (logged behaviour payload [v] w)) with (entries_of s w).
      by rewrite HE, <-app_assoc.
    + change (live (None :: mid)) with (live mid) in *.
      apply IH; [|done]. by rewrite HE, <-app_assoc.
Qed.

(** The call of a listener that makes one call back, which returns. *)
Lemma callback_one_call (l : Listener) (c : Call) (w : World) :
  script (behaviour l payload) = [c] →
  (run c (record_call l payload w).2).1 = Normal tt →
  ∃ w3, cb l w = (Normal tt, w3) ∧
        listeners w3 = listeners (run c (record_call l payload w).2).2 ∧
        sets w3 = sets (run c (record_call l payload w).2).2 ∧
        calls w3 = calls (run c (record_call l payload w).2).2 ∧
        console w3
        = console (run c (record_call l payload w).2).2
          ++ new_errors behaviour payload [l].
Proof.
  intros Hscript Hret.
  unfold guarded_call, try_catch, call_listener, bind.
  rewrite Hscript. cbn [for_each]. unfold bind.
  destruct (record_call l payload w) as [o wr] eqn:Hrec.
  assert (o = Normal tt) as -> by (by inversion Hrec).
  cbn [snd] in *.
  destruct (run c wr) as [o2 w2] eqn:Hrun. cbn [fst snd] in *. subst o2.
  unfold ret, new_errors. cbn [omap list_omap].
  destruct (completion (behaviour l payload)) as [e|]; simpl.
  - eexists. split; [done|]. by simpl.
  - eexists. split; [done|]. simpl. by rewrite app_nil_r.
Qed.

(** The walk around one listener [l] that changes the set: the
    listeners before it call nothing back, and neither do those that
    follow it in the set as [l] leaves it. *)
Lemma forEach_around (s : loc) (E1 E2 E1' rest' : SetData) (l : Listener)
    (fuel : nat) (w w3 : World) :
  entries_of s w = E1 ++ Some l :: E2 →
  Forall (quiet behaviour) (live E1) →
  cb l (logged behaviour payload (live E1) w) = (Normal tt, w3) →
  entries_of s w3 = E1' ++ rest' →
  length E1' = S (length E1) →
  Forall (quiet behaviour) (live rest') →
  length E1 + S (length rest') ≤ fuel →
  Set_forEach fuel s cb w = (Normal tt, logged behaviour payload (live rest') w3).
Proof.
  intros HE Hq1 Hcb HE3 Hlen Hq2 Hfuel. unfold Set_forEach.
  destruct (fuel - length E1) as [|k] eqn:Hk; [lia|].
  replace fuel with (length E1 + S k) by lia.
  pose proof (forEach_quiet_prefix s E1 [] (Some l :: E2) (S k) w HE Hq1) as Hpre.
  cbn [length app] in Hpre. rewrite Hpre.
  assert (entries_of s (logged behaviour payload (live E1) w) !! length E1
          = Some (Some l)) as Hat.
  { change (entries_of s (logged behaviour payload (live E1) w)) with (entries_of s w).
    rewrite HE. by apply list_lookup_middle. }
  cbn [Set_forEach_from]. rewrite Hat.
  unfold bind. rewrite Hcb. rewrite <-Hlen.
  apply (forEach_quiet run n d s rest' E1' k w3); [done|lia|done].
Qed.

End Reentrant.

Lemma run_call_on (fuel : nat) (n : string) (l : Listener) :
  run_call behaviour fuel (COn n l) = on n l.
Proof. by destruct fuel. Qed.

Lemma run_call_off (fuel : nat) (n : string) (l : Listener) :
  run_call behaviour fuel (COff n l) = off n l.
Proof. by destruct fuel. Qed.

Lemma registered_same_store (n : string) (w1 w2 : World) :
  listeners w1 = listeners w2 → sets w1 = sets w2 → registered n w1 = registered n w2.
Proof. unfold registered, entries_of. by intros -> ->. Qed.

(** Where a registered listener sits in its set. *)
Lemma registered_split (n : string) (l : Listener) (w : World) :
  wf w → l ∈ registered n w →
  ∃ s E1 E2,
    listeners w !! n = Some s ∧ entries_of s w = E1 ++ Some l :: E2 ∧
    (l ∉ live E1) ∧ (l ∉ live E2) ∧ registered n w = live E1 ++ l :: live E2.
Proof.
  intros Hwf Hl. pose proof (wf_nodup w Hwf) as Hnd. unfold registered in *.
  destruct (listeners w !! n) as [s|] eqn:Hs; [|by apply elem_of_nil in Hl].
  apply elem_of_live, list_elem_of_split in Hl as (E1 & E2 & HE).
  specialize (Hnd s). rewrite HE, live_app in Hnd.
  change (live (Some l :: E2)) with (l :: live E2) in Hnd.
  apply NoDup_app in Hnd as (_ & Hdisj & Hnd2). apply NoDup_cons in Hnd2 as [Hl2 _].
  exists s, E1, E2. split_and!; [done|done| |done|].
  - intros Hin. apply (Hdisj l Hin). by left.
  - by rewrite HE, live_app.
Qed.

Lemma invocations_after_dispatch (l : Listener) (p : EventPayload) (ls : list Listener)
    (w w' : World) :
  calls w' = calls w ++ new_calls p ls →
  invocations l w' = invocations l w + length (filter (λ x, x = l) ls).
Proof.
  intros Hc. unfold invocations. rewrite Hc.
  by rewrite filter_app, length_app, length_filter_new_calls.
Qed.

(** X8. A listener that removes itself when called (a one-shot
    listener), in a reachable state where the other listeners of [n] do
    not call back into the service: [emit(n, d)] returns having called
    every registered listener once, in insertion order, those registered
    after the one-shot listener included; afterwards the one-shot
    listener is no longer registered, the others are, in the same order,
    and the listeners of other events are as before. *)
Theorem listener_removing_itself_runs_once
    (n : string) (l : Listener) (d : Data) (w : World) :
  reachable behaviour w →
  l ∈ registered n w →
  (∀ p, script (behaviour l p) = [COff n l]) →
  (∀ l', l' ∈ registered n w → l' ≠ l → quiet behaviour l') →
  ∃ fuel0, ∀ fuel, fuel0 ≤ fuel →
    let payload := {| type := n; data := d |} in
    let r := emit behaviour fuel n d w in
    r.1 = Normal tt ∧
    calls r.2 = calls w ++ ((λ l', (l', payload)) <$> registered n w) ∧
    invocations l r.2 = invocations l w + 1 ∧
    registered n r.2 = filter (λ l', l' ≠ l) (registered n w) ∧
    (∀ n', n' ≠ n → registered n' r.2 = registered n' w).
Proof.
  intros Hreach Hl Hscript Hq. pose proof (reachable_wf _ Hreach) as Hwf.
  destruct (registered_split n l w Hwf Hl) as (s & E1 & E2 & Hs & HE & Hl1 & Hl2 & Hreg).
  assert (Forall (quiet behaviour) (live E1)) as Hq1.
  { apply Forall_forall. intros x Hx. apply Hq; [|by intros ->].
    rewrite Hreg. apply elem_of_app. by left. }
  assert (Forall (quiet behaviour) (live E2)) as Hq2.
  { apply Forall_forall. intros x Hx. apply Hq; [|by intros ->].
    rewrite Hreg. apply elem_of_app. right. by right. }
  exists (S (length (entries_of s w))). intros fuel Hfuel payload r.
  set (w1 := logged behaviour payload (live E1) w).
  destruct (callback_one_call (run_call behaviour fuel) n d l (COff n l) w1 (Hscript _))
    as (w3 & Hcb & Hl3 & Hs3 & Hc3 & _).
  { rewrite run_call_off. apply off_normal. }
  rewrite run_call_off in Hl3, Hs3, Hc3.
  set (wr := (record_call l _ w1).2) in *.
  assert (listeners wr !! n = Some s) as Hsr by done.
  assert (wf wr) as Hwfr by (by apply (wf_same_store w)).
  assert (entries_of s w3 = (SetData_delete l E1 ++ [None]) ++ E2) as HE3.
  { unfold entries_of at 1. rewrite Hs3, (off_known _ _ _ _ Hsr).
    assert (∀ w0 : World, sets (if length (live (SetData_delete l (entries_of s wr))) =? 0
                         then set_listeners (delete n) w0 else w0) = sets w0) as Hif
      by (intros w0; by destruct (_ =? _)).
    cbn [snd]. rewrite Hif. simpl. rewrite lookup_insert_eq. simpl.
    change (entries_of s wr) with (entries_of s w). rewrite HE.
    unfold SetData_delete at 1. rewrite fmap_app, fmap_cons, decide_True by done.
    fold (SetData_delete l E1). fold (SetData_delete l E2).
    rewrite (SetData_delete_absent l E2) by done. by rewrite <-app_assoc. }
  assert (r = (Normal tt, logged behaviour payload (live E2) w3)) as Hr.
  { unfold r, emit, emit_with, bind, Map_get, gets. cbn [fst snd]. rewrite Hs.
    apply (forEach_around _ n d s E1 E2 (SetData_delete l E1 ++ [None]) E2 l fuel w w3);
      try done.
    - rewrite length_app. unfold SetData_delete. rewrite length_fmap. simpl. lia.
    - rewrite HE, length_app in Hfuel. simpl in Hfuel. lia. }
  assert (calls r.2 = calls w ++ new_calls payload (registered n w)) as Hcalls.
  { rewrite Hr. cbn [snd logged calls]. rewrite Hc3.
    destruct (off_logs n l wr) as [-> _]. unfold wr, w1. simpl.
    rewrite Hreg. unfold new_calls. rewrite fmap_app, fmap_cons.
    by rewrite <-!app_assoc. }
  assert (listeners r.2 = listeners (off n l wr).2 ∧ sets r.2 = sets (off n l wr).2)
    as [Hlr Hsr'] by (by rewrite Hr).
  split_and!.
  - by rewrite Hr.
  - exact Hcalls.
  - rewrite (invocations_after_dispatch l payload (registered n w) w) by done.
    rewrite count_NoDup; [done| |done]. by apply registered_NoDup.
  - rewrite (registered_same_store n _ _ Hlr Hsr'). by rewrite registered_off.
  - intros n' Hne. rewrite (registered_same_store n' _ _ Hlr Hsr').
    by rewrite registered_off_other.
Qed.

(** X9. A listener that registers another listener for the event being
    dispatched, in a reachable state where the other listeners of [n]
    and the new one do not call back into the service: the listener
    added during the dispatch is called by the same dispatch, after all
    the others, and [emit(n, d)] returns with it registered last. *)
Theorem listener_added_during_emit_is_called
    (n : string) (l1 l2 : Listener) (d : Data) (w : World) :
  reachable behaviour w →
  l1 ∈ registered n w →
  l2 ∉ registered n w →
  (∀ p, script (behaviour l1 p) = [COn n l2]) →
  quiet behaviour l2 →
  (∀ l', l' ∈ registered n w → l' ≠ l1 → quiet behaviour l') →
  ∃ fuel0, ∀ fuel, fuel0 ≤ fuel →
    let payload := {| type := n; data := d |} in
    let r := emit behaviour fuel n d w in
    r.1 = Normal tt ∧
    calls r.2 = calls w ++ ((λ l', (l', payload)) <$> (registered n w ++ [l2])) ∧
    registered n r.2 = registered n w ++ [l2] ∧
    (∀ n', n' ≠ n → registered n' r.2 = registered n' w).
Proof.
  intros Hreach Hl1 Hl2 Hscript Hquiet2 Hq. pose proof (reachable_wf _ Hreach) as Hwf.
  destruct (registered_split n l1 w Hwf Hl1)
    as (s & E1 & E2 & Hs & HE & Hn1 & Hn2 & Hreg).
  assert (Forall (quiet behaviour) (live E1)) as Hq1.
  { apply Forall_forall. intros x Hx. apply Hq; [|by intros ->].
    rewrite Hreg. apply elem_of_app. by left. }
  assert (Forall (quiet behaviour) (live (E2 ++ [Some l2]))) as Hq2.
  { rewrite live_app. apply Forall_app. split; [|by repeat constructor].
    apply Forall_forall. intros x Hx. apply Hq; [|by intros ->].
    rewrite Hreg. apply elem_of_app. right. by right. }
  exists (S (S (length (entries_of s w)))). intros fuel Hfuel payload r.
  set (w1 := logged behaviour payload (live E1) w).
  destruct (callback_one_call (run_call behaviour fuel) n d l1 (COn n l2) w1 (Hscript _))
    as (w3 & Hcb & Hl3 & Hs3 & Hc3 & _).
  { rewrite run_call_on. apply on_normal. }
  rewrite run_call_on in Hl3, Hs3, Hc3.
  set (wr := (record_call l1 _ w1).2) in *.
  assert (listeners wr !! n = Some s) as Hsr by done.
  assert (wf wr) as Hwfr by (by apply (wf_same_store w)).
  assert (entries_of s w3 = (E1 ++ [Some l1]) ++ E2 ++ [Some l2]) as HE3.
  { unfold entries_of at 1. rewrite Hs3, (on_known _ _ _ _ Hsr).
    simpl. rewrite lookup_insert_eq. simpl.
    change (entries_of s wr) with (entries_of s w).
    unfold SetData_add. rewrite decide_False.
    - rewrite HE. by rewrite <-!app_assoc.
    - rewrite <-elem_of_live. unfold registered in Hl2. by rewrite Hs in Hl2. }
  assert (r = (Normal tt, logged behaviour payload (live (E2 ++ [Some l2])) w3)) as Hr.
  { unfold r, emit, emit_with, bind, Map_get, gets. cbn [fst snd]. rewrite Hs.
    apply (forEach_around _ n d s E1 E2 (E1 ++ [Some l1]) (E2 ++ [Some l2]) l1 fuel w w3);
      try done.
    - rewrite length_app. simpl. lia.
    - rewrite HE, length_app in Hfuel. rewrite length_app. simpl in *. lia. }
  assert (listeners r.2 = listeners (on n l2 wr).2 ∧ sets r.2 = sets (on n l2 wr).2)
    as [Hlr Hsr'] by (by rewrite Hr).
  split_and!.
  - by rewrite Hr.
  - rewrite Hr. cbn [snd logged calls]. rewrite Hc3.
    destruct (on_logs n l2 wr) as [-> _]. unfold wr, w1. simpl.
    rewrite Hreg, live_app. unfold new_calls. rewrite !fmap_app, !fmap_cons.
    by rewrite <-!app_assoc.
  - rewrite (registered_same_store n _ _ Hlr Hsr'). rewrite registered_on.
    change (registered n wr) with (registered n w). by rewrite decide_False.
  - intros n' Hne. rewrite (registered_same_store n' _ _ Hlr Hsr').
    by rewrite registered_on_other.
Qed.

(** ** A listener that clears the event being dispatched *)

Lemma run_call_clear (fuel : nat) (n : string) :
  run_call behaviour fuel (CClear n) = clear n.
Proof. by destruct fuel. Qed.

(** X10. A listener that calls [clear(n)] while [n] is dispatched, in a
    reachable state where the other listeners of [n] call nothing back:
    the dispatch in progress is not cut short. [emit(n, d)] returns
    having called every listener that was registered, once and in
    insertion order, those after the clearing one included; afterwards
    [n] has no listener and is no event type, and the listeners of other
    events are as before. *)
Theorem clear_during_emit_does_not_stop_dispatch
    (n : string) (l : Listener) (d : Data) (w : World) :
  reachable behaviour w →
  l ∈ registered n w →
  (∀ p, script (behaviour l p) = [CClear n]) →
  (∀ l', l' ∈ registered n w → l' ≠ l → quiet behaviour l') →
  ∃ fuel0, ∀ fuel, fuel0 ≤ fuel →
    let payload := {| type := n; data := d |} in
    let r := emit behaviour fuel n d w in
    r.1 = Normal tt ∧
    calls r.2 = calls w ++ ((λ l', (l', payload)) <$> registered n w) ∧
    registered n r.2 = [] ∧
    (n ∉ eventTypes r.2) ∧
    (∀ n', n' ≠ n → registered n' r.2 = registered n' w).
Proof.
  intros Hreach Hl Hscript Hq. pose proof (reachable_wf _ Hreach) as Hwf.
  destruct (registered_split n l w Hwf Hl) as (s & E1 & E2 & Hs & HE & Hl1 & Hl2 & Hreg).
  assert (Forall (quiet behaviour) (live E1)) as Hq1.
  { apply Forall_forall. intros x Hx. apply Hq; [|by intros ->].
    rewrite Hreg. apply elem_of_app. by left. }
  assert (Forall (quiet behaviour) (live E2)) as Hq2.
  { apply Forall_forall. intros x Hx. apply Hq; [|by intros ->].
    rewrite Hreg. apply elem_of_app. right. by right. }
  exists (S (length (entries_of s w))). intros fuel Hfuel payload r.
  set (w1 := logged behaviour payload (live E1) w).
  destruct (callback_one_call (run_call behaviour fuel) n d l (CClear n) w1 (Hscript _))
    as (w3 & Hcb & Hl3 & Hs3 & Hc3 & _).
  { by rewrite run_call_clear. }
  rewrite run_call_clear in Hl3, Hs3, Hc3.
  assert (entries_of s w3 = (E1 ++ [Some l]) ++ E2) as HE3.
  { unfold entries_of at 1. rewrite Hs3. rewrite <-app_assoc. exact HE. }
  assert (r = (Normal tt, logged behaviour payload (live E2) w3)) as Hr.
  { unfold r, emit, emit_with, bind, Map_get, gets. cbn [fst snd]. rewrite Hs.
    apply (forEach_around _ n d s E1 E2 (E1 ++ [Some l]) E2 l fuel w w3); try done.
    - rewrite length_app. simpl. lia.
    - rewrite HE, length_app in Hfuel. simpl in Hfuel. lia. }
  assert (listeners r.2 = delete n (listeners w)) as Hlr by (by rewrite Hr).
  split_and!.
  - by rewrite Hr.
  - rewrite Hr. cbn [snd logged calls]. rewrite Hc3. simpl.
    rewrite Hreg. unfold new_calls. rewrite fmap_app, fmap_cons.
    by rewrite <-!app_assoc.
  - unfold registered. by rewrite Hlr, lookup_delete_eq.
  - rewrite elem_of_eventTypes, Hlr, lookup_delete_eq. by intros [? ?].
  - intros n' Hne. unfold registered. rewrite Hlr, lookup_delete_ne by done.
    destruct (listeners w !! n') as [s'|]; [|done]. unfold entries_of.
    rewrite Hr. cbn [snd logged sets]. by rewrite Hs3.
Qed.

(** ** The effect of [useEventOn] *)

Lemma useEventOn_effect_eq (n : string) (l : Listener) (w : World) :
  Hooks.useEventOn_effect n l w = (Normal (off n l), (on n l w).2).
Proof.
  unfold Hooks.useEventOn_effect, bind, ret. pose proof (on_normal n l w) as Hon.
  destruct (on n l w) as [o w1]. simpl in *. by subst o.
Qed.

Lemma mount_unmount_useEventOn (n : string) (l : Listener) (w : World) :
  Hooks.mount_unmount (Hooks.useEventOn_effect n l) w
  = (Normal tt, (off n l (on n l w).2).2).
Proof.
  unfold Hooks.mount_unmount, bind. rewrite useEventOn_effect_eq.
  pose proof (off_normal n l (on n l w).2) as Hoff.
  destruct (off n l (on n l w).2) as [o w2]. simpl in *. by subst o.
Qed.

(** X11. A component that uses [useEventOn] is mounted and unmounted any
    number of times on a reachable service, each mount with its own new
    listener function: every effect and cleanup returns, and after the
    last unmount the registry is as it was before the first mount, the
    same keys and under every event the same listeners in the same
    order. No listener is called and nothing is logged. *)
Theorem useEventOn_mount_unmount_leaves_no_listener
    (n : string) (ls : list Listener) (w : World) :
  reachable behaviour w →
  (∀ l, l ∈ ls → l ∉ registered n w) →
  let r := for_each (λ l, Hooks.mount_unmount (Hooks.useEventOn_effect n l)) ls w in
  r.1 = Normal tt ∧
  listeners r.2 = listeners w ∧
  eventTypes r.2 = eventTypes w ∧
  (∀ n', registered n' r.2 = registered n' w ∧ listenerCount n' r.2 = listenerCount n' w) ∧
  calls r.2 = calls w ∧ console r.2 = console w.
Proof.
  intros Hreach Hfresh r. pose proof (reachable_wf _ Hreach) as Hwf. clear Hreach.
  assert (r.1 = Normal tt ∧ listeners r.2 = listeners w ∧
          (∀ n', registered n' r.2 = registered n' w) ∧
          calls r.2 = calls w ∧ console r.2 = console w) as (Hret & Hl & Hreg & Hc & Hco).
  { unfold r. clear r. revert w Hwf Hfresh. induction ls as [|l ls IH]; intros w Hwf Hfresh.
    - done.
    - cbn [for_each]. unfold bind. rewrite mount_unmount_useEventOn.
      set (w2 := (off n l (on n l w).2).2).
      assert (l ∉ registered n w) as Hl by (apply Hfresh; by left).
      assert (wf w2) as Hwf2 by (by apply wf_off, wf_on).
      assert (∀ n', registered n' w2 = registered n' w) as Hreg2
        by (intros n'; by apply registered_off_on).
      destruct (IH w2 Hwf2) as (Hret & Hl' & Hreg & Hc & Hco).
      { intros l' Hl'. rewrite Hreg2. apply Hfresh. by right. }
      split_and!.
      + done.
      + rewrite Hl'. by apply listeners_off_on.
      + intros n'. by rewrite Hreg.
      + rewrite Hc. unfold w2. destruct (off_logs n l (on n l w).2) as [-> _].
        by destruct (on_logs n l w) as [-> _].
      + rewrite Hco. unfold w2. destruct (off_logs n l (on n l w).2) as [_ ->].
        by destruct (on_logs n l w) as [_ ->]. }
  split_and!; [done|done|by apply eventTypes_same_keys| |done|done].
  intros n'. by rewrite !listenerCount_registered, Hreg.
Qed.


(** ** The state of [useEventState] *)





End Facts.
End EventServiceFacts.

(** * Facts about [BroadcastService] *)

Module BroadcastServiceFacts.
Import BroadcastService JsFacts.
Section Facts.

Context {Data : Type}.

Abbreviation World := (@BroadcastService.World Data).
Abbreviation Call := (@BroadcastService.Call Data).
Abbreviation Body := (@BroadcastService.Body Data).
Abbreviation Event := (@BroadcastService.Event Data).

Variable serializable : Data → bool.
Variable behaviour : Callback → option Data → Body.

Ltac store :=
  cbn [fst snd negb channels listeners listenerIdCounter objects next_ref posted console
       calls issued set_channels set_listeners set_listenerIdCounter set_objects
       set_next_ref set_posted set_console set_calls set_issued].

Ltac exec :=
  unfold subscribe, unsubscribe, broadcast, close, closeAll, postMessage,
    pre_increment_listenerIdCounter, channels_has, new_BroadcastChannel, new_closure,
    addEventListener, removeEventListener, BroadcastChannel_close, console_error,
    try_catch, bind, gets, modify, ret, throw;
  store.

(** ** [subscribe] *)

Lemma subscribe_unknown (c : string) (cb : Callback) (w : World) :
  channels w !! c = None →
  let id := listener_id (N.succ (listenerIdCounter w)) in
  let h := {| handler_addr := S (next_ref w); handler_channelName := c;
              handler_callback := cb |} in
  subscribe c cb w
  = (Normal id,
     set_listeners <[c := <[id := h]> ∅]>
       (set_objects (alter (add_listener h) (next_ref w))
          (set_next_ref S
             (set_listenerIdCounter N.succ
                (set_listeners <[c := ∅]>
                   (set_channels <[c := next_ref w]>
                      (set_next_ref S
                         (set_objects
                            <[next_ref w := {| name := c; closed := false;
                                               message_listeners := [] |}]> w)))))))).
Proof.
  intros Hc. exec. rewrite Hc. rewrite bool_decide_eq_false_2 by (by intros [? ?]).
  store. rewrite lookup_insert_eq. store. by rewrite lookup_insert_eq.
Qed.

Lemma subscribe_known (c : string) (cb : Callback) (ch : ref)
    (ls : gmap string Handler) (w : World) :
  channels w !! c = Some ch →
  listeners w !! c = Some ls →
  let id := listener_id (N.succ (listenerIdCounter w)) in
  let h := {| handler_addr := next_ref w; handler_channelName := c;
              handler_callback := cb |} in
  subscribe c cb w
  = (Normal id,
     set_listeners <[c := <[id := h]> ls]>
       (set_objects (alter (add_listener h) ch)
          (set_next_ref S (set_listenerIdCounter N.succ w)))).
Proof.
  intros Hc Hl. exec. rewrite Hc. rewrite bool_decide_eq_true_2 by (by eexists).
  store. rewrite Hc. store. by rewrite Hl.
Qed.

(** A channel that [broadcast] created has no listener map, and
    [subscribe] fails on it after attaching its adapter. *)
Lemma subscribe_handle_only (c : string) (cb : Callback) (ch : ref) (w : World) :
  channels w !! c = Some ch →
  listeners w !! c = None →
  let h := {| handler_addr := next_ref w; handler_channelName := c;
              handler_callback := cb |} in
  subscribe c cb w
  = (Thrown (TypeError "Cannot read properties of undefined (reading 'set')"),
     set_objects (alter (add_listener h) ch)
       (set_next_ref S (set_listenerIdCounter N.succ w))).
Proof.
  intros Hc Hl. exec. rewrite Hc. rewrite bool_decide_eq_true_2 by (by eexists).
  store. rewrite Hc. store. by rewrite Hl.
Qed.


(** ** [unsubscribe] *)

Lemma unsubscribe_known (c i : string) (ch : ref) (ls : gmap string Handler)
    (h : Handler) (w : World) :
  channels w !! c = Some ch →
  listeners w !! c = Some ls →
  ls !! i = Some h →
  unsubscribe c i w
  = (Normal tt,
     set_listeners <[c := delete i ls]> (set_objects (alter (remove_listener h) ch) w)).
Proof. intros Hc Hl Hi. exec. by rewrite Hc, Hl, Hi. Qed.

Lemma unsubscribe_unknown (c i : string) (w : World) :
  channels w !! c = None ∨ (listeners w !! c ≫= (.!! i)) = None →
  unsubscribe c i w = (Normal tt, w).
Proof.
  intros H. exec. destruct (channels w !! c); [|done].
  destruct (listeners w !! c) as [ls|]; [|done]. simpl in H.
  destruct H as [?|H]; [done|]. by rewrite H.
Qed.

(** ** [broadcast] *)

(** The state in which [broadcast] sends: the channel has been created
    if it was missing. *)
Lemma broadcast_known (c : string) (data : option Data) (ch : ref) (w : World) :
  channels w !! c = Some ch →
  broadcast serializable c data w
  = (Normal tt,
     if is_closed ch w
     then set_console (λ l, l ++ [(broadcast_error_message c, InvalidStateError)]) w
     else if can_clone serializable data
          then set_posted (λ q, q ++ [(ch, data)]) w
          else set_console (λ l, l ++ [(broadcast_error_message c, DataCloneError)]) w).
Proof.
  intros Hc. exec. rewrite Hc. rewrite bool_decide_eq_true_2 by (by eexists).
  simpl. rewrite Hc. unfold is_closed.
  destruct (match objects w !! ch with Some o => closed o | None => false end); [done|].
  by destruct (can_clone serializable data).
Qed.

Lemma broadcast_unknown (c : string) (data : option Data) (w : World) :
  channels w !! c = None →
  let w1 := set_channels <[c := next_ref w]>
              (set_next_ref S
                 (set_objects <[next_ref w := {| name := c; closed := false;
                                                 message_listeners := [] |}]> w)) in
  broadcast serializable c data w
  = (Normal tt,
     if can_clone serializable data
     then set_posted (λ q, q ++ [(next_ref w, data)]) w1
     else set_console (λ l, l ++ [(broadcast_error_message c, DataCloneError)]) w1).
Proof.
  intros Hc. exec. rewrite Hc. rewrite bool_decide_eq_false_2 by (by intros [? ?]).
  simpl. rewrite lookup_insert_eq. unfold is_closed. simpl. rewrite lookup_insert_eq.
  simpl. by destruct (can_clone serializable data).
Qed.

(** ** [close] and [closeAll] *)


Lemma set_objects_id (w : World) : set_objects (λ objs, objs) w = w.
Proof. by destruct w. Qed.

(** Detaching adapters touches the channel objects only. *)
Lemma remove_all (ch : ref) (hs : list Handler) (w : World) :
  for_each (λ listener, removeEventListener ch listener) hs w
  = (Normal tt,
     set_objects (λ objs, foldl (λ objs h, alter (remove_listener h) ch objs) objs hs) w).
Proof.
  revert w. induction hs as [|h hs IH]; intros w; simpl.
  - unfold ret. by rewrite set_objects_id.
  - unfold bind, removeEventListener, modify. by rewrite IH.
Qed.

Lemma close_known (c : string) (ch : ref) (ls : gmap string Handler) (w : World) :
  channels w !! c = Some ch →
  listeners w !! c = Some ls →
  close c w
  = (Normal tt,
     set_listeners (delete c)
       (set_channels (delete c)
          (set_objects
             (λ objs, alter mark_closed ch
                        (foldl (λ objs h, alter (remove_listener h) ch objs) objs
                               (map_to_list ls).*2)) w))).
Proof.
  intros Hc Hl. unfold close, bind, gets. simpl. rewrite Hc, Hl.
  rewrite remove_all. by unfold BroadcastChannel_close, modify.
Qed.

Lemma close_unknown (c : string) (w : World) :
  channels w !! c = None ∨ listeners w !! c = None → close c w = (Normal tt, w).
Proof.
  intros H. unfold close, bind, gets, ret. simpl.
  destruct (channels w !! c); [|done]. destruct (listeners w !! c); [|done].
  by destruct H.
Qed.



(** ** What a call leaves alone *)



Lemma broadcast_maps (c' : string) (data : option Data) (w : World) :
  listeners (broadcast serializable c' data w).2 = listeners w ∧
  is_Some (channels (broadcast serializable c' data w).2 !! c') ∧
  (∀ c, is_Some (channels w !! c) →
        channels (broadcast serializable c' data w).2 !! c = channels w !! c) ∧
  (∀ c, c ≠ c' → channels (broadcast serializable c' data w).2 !! c = channels w !! c).
Proof.
  destruct (channels w !! c') as [ch|] eqn:Hc.
  - rewrite (broadcast_known c' data ch w Hc). store.
    assert (∀ w', w' = (if is_closed ch w
        then set_console (λ l, l ++ [(broadcast_error_message c', InvalidStateError)]) w
        else if can_clone serializable data
             then set_posted (λ q, q ++ [(ch, data)]) w
             else set_console (λ l, l ++ [(broadcast_error_message c', DataCloneError)]) w)
      → listeners w' = listeners w ∧ channels w' = channels w) as Hsame.
    { intros w' ->. destruct (is_closed ch w); [done|].
      by destruct (can_clone serializable data). }
    destruct (Hsame _ eq_refl) as [-> ->]. rewrite Hc. by split_and!; [|eexists|..].
  - rewrite (broadcast_unknown c' data w Hc). store.
    destruct (can_clone serializable data); simpl.
    + split_and!; [done|by rewrite lookup_insert_eq| |].
      * intros c [x Hx]. rewrite lookup_insert_ne; [done|congruence].
      * intros c Hne. by rewrite lookup_insert_ne.
    + split_and!; [done|by rewrite lookup_insert_eq| |].
      * intros c [x Hx]. rewrite lookup_insert_ne; [done|congruence].
      * intros c Hne. by rewrite lookup_insert_ne.
Qed.







(** ** Properties kept by every event *)

Lemma preserves_messageHandler (P : World → Prop) (h : Handler) (d : option Data) :
  (∀ c, preserves P (run_call serializable c)) →
  (∀ f, preserves P (modify (set_calls f))) →
  (∀ f, preserves P (modify (set_console f))) →
  preserves P (messageHandler serializable behaviour h d).
Proof.
  intros Hrun Hcalls Hconsole. unfold messageHandler. apply preserves_try_catch.
  - unfold call_callback. apply preserves_bind; [apply Hcalls|]. intros _.
    apply preserves_bind; [by apply preserves_for_each|]. intros _.
    destruct (completion _); by intros w.
  - intros e. apply Hconsole.
Qed.

Lemma preserves_run_events (P : World → Prop) (es : list Event) (w : World) :
  (∀ c, preserves P (run_call serializable c)) →
  (∀ f, preserves P (modify (set_calls f))) →
  (∀ f, preserves P (modify (set_console f))) →
  P w → P (run_events serializable behaviour es w).
Proof.
  intros Hrun Hcalls Hconsole. revert w.
  induction es as [|e es IH]; intros w Hw; [done|]. simpl. apply IH.
  destruct e as [c|h d]; simpl; [by apply Hrun|by apply preserves_messageHandler].
Qed.



(** ** Listener ids *)

Lemma listener_id_inj (a b : N) : listener_id a = listener_id b → a = b.
Proof.
  unfold listener_id. intros H.
  apply (inj (String.app "listener_")) in H. by apply (inj pretty) in H.
Qed.






(** ** Channels that only [broadcast] has touched *)




(** ** Delivery *)





(** ** Introspection *)

Lemma elem_of_getActiveChannels (c : string) (w : World) :
  c ∈ getActiveChannels w ↔ is_Some (channels w !! c).
Proof.
  unfold getActiveChannels. rewrite list_elem_of_fmap. split.
  - intros ([k v] & -> & Hkv%elem_of_map_to_list). by exists v.
  - intros [v Hv]. exists (c, v). split; [done|]. by apply elem_of_map_to_list.
Qed.

Lemma isChannelActive_spec (c : string) (w : World) :
  isChannelActive c w = true ↔ c ∈ getActiveChannels w.
Proof.
  unfold isChannelActive. by rewrite bool_decide_eq_true, elem_of_getActiveChannels.
Qed.

(** [close] on a channel that was subscribed to: both entries go and the
    handle is closed. *)
Lemma close_subscribed (c : string) (ch : ref) (ls : gmap string Handler) (w : World) :
  channels w !! c = Some ch →
  listeners w !! c = Some ls →
  is_Some (objects w !! ch) →
  let w' := (close c w).2 in
  (c ∉ getActiveChannels w') ∧ listeners w' !! c = None ∧ is_closed ch w' = true.
Proof.
  intros Hc Hl [o Ho]. rewrite (close_known c ch ls w Hc Hl). store. split_and!.
  - rewrite elem_of_getActiveChannels. simpl. rewrite lookup_delete_eq. by intros [? ?].
  - apply lookup_delete_eq.
  - unfold is_closed. simpl. rewrite lookup_alter_eq.
    assert (is_Some (foldl (λ objs h, alter (remove_listener h) ch objs) (objects w)
                           (map_to_list ls).*2 !! ch)) as [o' ->]; [|done].
    generalize (map_to_list ls).*2. intros hs.
    revert Ho. generalize (objects w). revert o.
    induction hs as [|h hs IH]; intros o objs Ho; simpl; [by eexists|].
    eapply IH. rewrite lookup_alter_eq, Ho. done.
Qed.

(** ** The claims about the broadcast bus *)

(** C1, at the input where the code departs from it: a channel that
    became active through [broadcast] alone is active, and [close] on it
    returns without changing anything, so the channel is still among
    [getActiveChannels()] afterwards. *)
Theorem C1_close_leaves_broadcast_only_channel (c : string) (data : option Data) :
  let w := (broadcast serializable c data init).2 in
  isChannelActive c w = true ∧
  close c w = (Normal tt, w) ∧
  c ∈ getActiveChannels (close c w).2.
Proof.
  intros w.
  destruct (broadcast_maps c data init) as (Hl & Hc & _). fold w in Hl, Hc.
  assert (close c w = (Normal tt, w)) as Hclose.
  { apply close_unknown. right. rewrite Hl. simpl. apply lookup_empty. }
  split_and!.
  - by apply bool_decide_eq_true.
  - done.
  - rewrite Hclose. by apply elem_of_getActiveChannels.
Qed.


(** C8. [unsubscribe(c, i)] returns normally and removes at most the
    adapter registered under [i] on [c]: the map of handles and the
    counter are unchanged, so [getActiveChannels()] is unchanged;
    the listener maps of the other channels are unchanged; on [c] every
    other id keeps its adapter and [c] keeps its listener map, even if it
    is now empty; no channel object is closed or renamed, the objects
    other than the handle of [c] are unchanged, and on the handle of [c]
    every adapter other than the one of [i] stays attached. If [c] has no
    handle or [i] is not registered on [c], nothing changes at all. *)
Theorem C8_unsubscribe_removes_one_adapter (w : World) (c i : string) :
  let w' := (unsubscribe c i w).2 in
  (unsubscribe c i w).1 = Normal tt ∧
  channels w' = channels w ∧
  getActiveChannels w' = getActiveChannels w ∧
  listenerIdCounter w' = listenerIdCounter w ∧
  (∀ c', c' ≠ c → listeners w' !! c' = listeners w !! c') ∧
  (∀ j, j ≠ i → (listeners w' !! c ≫= (.!! j)) = (listeners w !! c ≫= (.!! j))) ∧
  (is_Some (listeners w' !! c) ↔ is_Some (listeners w !! c)) ∧
  (∀ o, closed <$> objects w' !! o = closed <$> objects w !! o) ∧
  (∀ o, name <$> objects w' !! o = name <$> objects w !! o) ∧
  (∀ o, channels w !! c ≠ Some o → objects w' !! o = objects w !! o) ∧
  (∀ o h,
     channels w !! c = Some o → (listeners w !! c ≫= (.!! i)) = Some h →
     adapters_of o w' = filter (λ h', h' ≠ h) (adapters_of o w)) ∧
  (channels w !! c = None ∨ (listeners w !! c ≫= (.!! i)) = None → w' = w).
Proof.
  intros w'.
  destruct (decide (channels w !! c = None ∨ (listeners w !! c ≫= (.!! i)) = None))
    as [Hno|Hyes].
  { unfold w'. rewrite (unsubscribe_unknown c i w Hno). store.
    split_and!; try done. intros o h Ho Hh. destruct Hno; congruence. }
  destruct (channels w !! c) as [ch|] eqn:Hc; [|by destruct Hyes; left].
  destruct (listeners w !! c) as [ls|] eqn:Hl; [|by destruct Hyes; right].
  destruct (ls !! i) as [h|] eqn:Hi; [|by destruct Hyes; right].
  unfold w'. rewrite (unsubscribe_known c i ch ls h w Hc Hl Hi). store.
  split_and!; try done.
  - intros c' Hne. by rewrite lookup_insert_ne.
  - intros j Hne. rewrite lookup_insert_eq. simpl. by rewrite lookup_delete_ne.
  - rewrite lookup_insert_eq. split; by eexists.
  - intros o. rewrite lookup_alter. case_decide; [subst o|done].
    by destruct (objects w !! ch).
  - intros o. rewrite lookup_alter. case_decide; [subst o|done].
    by destruct (objects w !! ch).
  - intros o Ho. rewrite lookup_alter_ne; [done|congruence].
  - intros o h0 [= <-] Hh0. simpl in Hh0. rewrite Hi in Hh0. injection Hh0 as <-.
    unfold adapters_of. store. rewrite lookup_alter_eq.
    by destruct (objects w !! ch).
Qed.

(** C9. [broadcast(c, data)] returns normally for every channel name and
    every payload, the omitted one included, and [c] is active
    afterwards, whether or not it was known before. If the send fails
    (the handle is closed, or the payload cannot be cloned) the error is
    written to the console under the message that names [c] and nothing
    is sent; otherwise the message goes to the transport and the console
    is left alone. *)
Theorem C9_broadcast_never_raises (w : World) (c : string) (data : option Data) :
  let r := broadcast serializable c data w in
  r.1 = Normal tt ∧
  isChannelActive c r.2 = true ∧
  ∀ ch, channels r.2 !! c = Some ch →
    if is_closed ch r.2 || negb (can_clone serializable data)
    then (∃ e, console r.2 = console w ++ [(broadcast_error_message c, e)]) ∧
         posted r.2 = posted w
    else console r.2 = console w ∧ posted r.2 = posted w ++ [(ch, data)].
Proof.
  cbv zeta. destruct (channels w !! c) as [ch|] eqn:Hc.
  - rewrite (broadcast_known c data ch w Hc).
    unfold isChannelActive, is_closed.
    destruct (match objects w !! ch with Some o => closed o | None => false end)
      eqn:Hclosed; [|destruct (can_clone serializable data) eqn:Hclone];
      store; rewrite Hc;
      (split; [done|]); (split; [by apply bool_decide_eq_true; eexists|]);
      intros ch' [= <-]; rewrite Hclosed; simpl.
    + split; [by eexists|done].
    + done.
    + split; [by eexists|done].
  - rewrite (broadcast_unknown c data w Hc).
    unfold isChannelActive, is_closed.
    destruct (can_clone serializable data) eqn:Hclone;
      store; rewrite lookup_insert_eq;
      (split; [done|]); (split; [by apply bool_decide_eq_true; eexists|]);
      intros ch' [= <-]; rewrite lookup_insert_eq; simpl.
    + done.
    + split; [by eexists|done].
Qed.

(** [subscribe] does not repair a channel that only has a handle: it
    fails and the channel stays as it was. *)
Lemma subscribe_keeps_handle_only (c : string) (cb : Callback) (w : World) :
  handle_only c w →
  (subscribe c cb w).1
  = Thrown (TypeError "Cannot read properties of undefined (reading 'set')") ∧
  handle_only c (subscribe c cb w).2.
Proof.
  intros [[ch Hc] Hl]. rewrite (subscribe_handle_only c cb ch w Hc Hl). store.
  split; [done|]. split; [by eexists|done].
Qed.


(** * Further properties of the broadcast bus *)

(** ** The adapters on a channel object *)

Ltac store_all :=
  cbn [fst snd negb channels listeners listenerIdCounter objects next_ref posted console
       calls issued set_channels set_listeners set_listenerIdCounter set_objects
       set_next_ref set_posted set_console set_calls set_issued] in *.

Lemma elem_of_adapters_of (h : Handler) (r : ref) (w : World) :
  h ∈ adapters_of r w ↔ ∃ o, objects w !! r = Some o ∧ h ∈ message_listeners o.
Proof.
  unfold adapters_of. destruct (objects w !! r) as [o|]; split.
  - intros Hin. by exists o.
  - by intros (o' & [= <-] & Hin).
  - by intros Hin%elem_of_nil.
  - by intros (o' & [=] & _).
Qed.

Lemma adapters_of_ext (r : ref) (w w' : World) :
  objects w' !! r = objects w !! r → adapters_of r w' = adapters_of r w.
Proof. unfold adapters_of. by intros ->. Qed.

Lemma adapters_of_add (h : Handler) (ch : ref) (w w' : World) :
  objects w' !! ch = add_listener h <$> objects w !! ch →
  is_Some (objects w !! ch) →
  adapters_of ch w'
  = if decide (h ∈ adapters_of ch w) then adapters_of ch w else adapters_of ch w ++ [h].
Proof. unfold adapters_of. intros -> [o ->]. done. Qed.

Lemma adapters_of_remove (h : Handler) (ch : ref) (w w' : World) :
  objects w' !! ch = remove_listener h <$> objects w !! ch →
  adapters_of ch w' = filter (λ h', h' ≠ h) (adapters_of ch w).
Proof. unfold adapters_of. intros ->. by destruct (objects w !! ch). Qed.


(** Detaching adapters one after the other. *)
Lemma lookup_remove_all_ne (ch r : ref) (hs : list Handler)
    (objs : gmap ref BroadcastChannel) :
  r ≠ ch →
  foldl (λ objs h, alter (remove_listener h) ch objs) objs hs !! r = objs !! r.
Proof.
  intros Hne. revert objs. induction hs as [|h hs IH]; intros objs; [done|].
  simpl. rewrite IH. by rewrite lookup_alter_ne.
Qed.

Lemma lookup_remove_all (ch : ref) (hs : list Handler) (objs : gmap ref BroadcastChannel) :
  foldl (λ objs h, alter (remove_listener h) ch objs) objs hs !! ch
  = (λ o, {| name := name o; closed := closed o;
             message_listeners := filter (λ h, h ∉ hs) (message_listeners o) |})
      <$> objs !! ch.
Proof.
  revert objs. induction hs as [|h hs IH]; intros objs.
  - simpl. destruct (objs !! ch) as [[nm cl ml]|]; [|done]. simpl. do 2 f_equal.
    induction ml as [|x l IHl]; [done|].
    rewrite filter_cons_True by apply not_elem_of_nil. by rewrite <-IHl.
  - simpl. rewrite IH, lookup_alter_eq. destruct (objs !! ch) as [o|]; [|done].
    simpl. f_equal. unfold remove_listener. simpl. f_equal.
    induction (message_listeners o) as [|x l IHl]; [done|].
    destruct (decide (x = h)) as [->|Hne].
    + rewrite (filter_cons_False (λ h', h' ≠ h)) by (by intros ?).
      rewrite (filter_cons_False (λ h0, h0 ∉ h :: hs)); [done|].
      intros Hn. apply Hn. by left.
    + rewrite (filter_cons_True (λ h', h' ≠ h)) by done.
      destruct (decide (x ∈ hs)) as [Hin|Hnin].
      * rewrite !filter_cons_False; [done| |]; intros Hn; apply Hn; [by right|done].
      * rewrite !filter_cons_True; [by rewrite IHl|..].
        -- by apply not_elem_of_cons.
        -- done.
Qed.

(** ** The store stays consistent *)

Lemma consistent_same_store (w w' : World) :
  channels w' = channels w → listeners w' = listeners w →
  listenerIdCounter w' = listenerIdCounter w → objects w' = objects w →
  next_ref w' = next_ref w → consistent w → consistent w'.
Proof.
  destruct w, w'. simpl. intros -> -> -> -> -> [H1 H2 H3 H4 H5 H6 H7].
  split; [exact H1|exact H2|exact H3|exact H4|exact H5|exact H6|exact H7].
Qed.

Lemma consistent_init : consistent (@init Data).
Proof.
  split; repeat intro; simpl in *;
    match goal with H : ∅ !! _ = Some _ |- _ => by rewrite lookup_empty in H end.
Qed.

Lemma fresh_id (w : World) (c : string) (ls : gmap string Handler) :
  tracked_ids w → listeners w !! c = Some ls →
  ls !! listener_id (N.succ (listenerIdCounter w)) = None.
Proof.
  intros Hids Hl. destruct (ls !! _) as [h|] eqn:Hi; [|done].
  destruct (Hids _ _ _ _ Hl Hi) as (_ & k & Hk%listener_id_inj & Hle). lia.
Qed.

Lemma fresh_adapter (w : World) (r : ref) (h : Handler) :
  adapters_below (next_ref w) w → next_ref w ≤ handler_addr h → h ∉ adapters_of r w.
Proof.
  intros Hb Hle Hin. apply elem_of_adapters_of in Hin as (o & Ho & Hin).
  specialize (Hb _ _ _ Ho Hin). lia.
Qed.

Lemma tracked_below (w : World) (c : string) (ls : gmap string Handler) (i : string)
    (h : Handler) :
  consistent w → listeners w !! c = Some ls → ls !! i = Some h →
  handler_addr h < next_ref w.
Proof.
  intros Hw Hl Hi. destruct (c_attached w Hw _ _ Hl) as (ch & Hc & Hiff).
  assert (h ∈ adapters_of ch w) as Hin by (apply Hiff; by exists i).
  apply elem_of_adapters_of in Hin as (o & Ho & Hin).
  by apply (c_below w Hw _ _ _ Ho Hin).
Qed.

(** Attaching an adapter keeps the adapters below a bound above it. *)
Lemma adapters_below_add (bound : ref) (h : Handler) (ch : ref) (w w' : World) :
  objects w' = alter (add_listener h) ch (objects w) →
  handler_addr h < bound → adapters_below bound w → adapters_below bound w'.
Proof.
  intros Hobj Hh Hb r o h' Ho Hin. rewrite Hobj, lookup_alter in Ho.
  case_decide as Hr; [subst r|by eapply Hb].
  destruct (objects w !! ch) as [o0|] eqn:Ho0; [|done]. simpl in Ho.
  injection Ho as <-. simpl in Hin. case_decide; [by eapply Hb|].
  apply elem_of_app in Hin as [Hin|Hin%list_elem_of_singleton]; [by eapply Hb|by subst].
Qed.

Lemma adapters_below_mono (b1 b2 : ref) (w : World) :
  b1 ≤ b2 → adapters_below b1 w → adapters_below b2 w.
Proof. intros Hle Hb r o h Ho Hin. specialize (Hb r o h Ho Hin). lia. Qed.

(** What only detaches adapters or closes objects keeps them below the bound. *)
Lemma adapters_below_shrink (bound : ref) (w w' : World) :
  (∀ r o', objects w' !! r = Some o' →
     ∃ o, objects w !! r = Some o ∧ message_listeners o' ⊆ message_listeners o) →
  adapters_below bound w → adapters_below bound w'.
Proof.
  intros Hsub Hb r o' h Ho' Hin. destruct (Hsub _ _ Ho') as (o & Ho & Hincl).
  apply (Hb r o h Ho). by apply Hincl.
Qed.

Lemma consistent_subscribe (c : string) (cb : Callback) :
  preserves consistent (subscribe c cb : M World string).
Proof.
  intros w Hw. pose proof Hw as [Hopen Hdist Hbelow Hatt Hids Hchan Hhand].
  set (id := listener_id (N.succ (listenerIdCounter w))).
  assert (∀ c' ls', listeners w !! c' = Some ls' → ls' !! id = None) as Hid
    by (intros; by eapply fresh_id).
  destruct (channels w !! c) as [ch|] eqn:Hc.
  - destruct (Hopen _ _ Hc) as (Hlt & o & Ho & Hclosed & Hname).
    set (h := {| handler_addr := next_ref w; handler_channelName := c;
                 handler_callback := cb |}).
    assert (∀ r, h ∉ adapters_of r w) as Hfresh
      by (intros r; apply fresh_adapter; [done|simpl; lia]).
    assert (∀ w' : World,
              channels w' = channels w →
              objects w' = alter (add_listener h) ch (objects w) →
              next_ref w' = S (next_ref w) →
              handles_open w' ∧ handles_distinct w' ∧ adapters_below (next_ref w') w' ∧
              (∀ c0 ch0, c0 ≠ c → channels w !! c0 = Some ch0 →
                 adapters_of ch0 w' = adapters_of ch0 w)) as Hframe.
    { intros w' Hc' Ho' Hn'. split_and!.
      - intros c0 ch0 Hc0. rewrite Hc' in Hc0. rewrite Hn', Ho'.
        destruct (Hopen _ _ Hc0) as (Hlt0 & o0 & Ho0 & Hcl0 & Hn0).
        split; [lia|]. rewrite lookup_alter. case_decide; [subst ch0|by exists o0].
        rewrite Ho0. simpl. by eexists.
      - intros c1 c2 ch0. rewrite Hc'. apply Hdist.
      - rewrite Hn'. apply (adapters_below_add _ h ch w); [done|simpl; lia|].
        by apply (adapters_below_mono (next_ref w)); [lia|].
      - intros c0 ch0 Hne Hc0. apply adapters_of_ext. rewrite Ho'.
        apply lookup_alter_ne. intros <-. by destruct Hne; eapply Hdist. }
    destruct (listeners w !! c) as [ls|] eqn:Hl.
    + rewrite (subscribe_known c cb ch ls w Hc Hl). cbn [snd]. fold h id.
      set (w' := set_listeners _ _).
      destruct (Hframe w') as (H1 & H2 & H3 & Hother); [done..|].
      assert (listeners w' = <[c := <[id := h]> ls]> (listeners w)) as Hl' by done.
      assert (listenerIdCounter w' = N.succ (listenerIdCounter w)) as Hcnt' by done.
      assert (adapters_of ch w' = adapters_of ch w ++ [h]) as Hadd.
      { rewrite (adapters_of_add h ch w w'); [by rewrite decide_False| |by eexists].
        unfold w'. store. apply lookup_alter_eq. }
      destruct (Hatt _ _ Hl) as (ch' & Hc' & Hiff). rewrite Hc in Hc'.
      injection Hc' as <-.
      split; [done|done|done|..].
      * intros c0 ls0 Hl0. rewrite Hl', lookup_insert in Hl0. case_decide as Hc0.
        -- subst c0. injection Hl0 as <-. exists ch. split; [done|].
           intros h'. rewrite Hadd, elem_of_app, list_elem_of_singleton, Hiff.
           split.
           ++ intros [[i Hi]| ->].
              ** exists i. rewrite lookup_insert_ne; [done|]. intros <-.
                 by rewrite (Hid _ _ Hl) in Hi.
              ** exists id. by rewrite lookup_insert_eq.
           ++ intros [i Hi]. rewrite lookup_insert in Hi. case_decide.
              ** right. by injection Hi as <-.
              ** left. by exists i.
        -- destruct (Hatt _ _ Hl0) as (ch0 & Hch0 & Hiff0). exists ch0.
           split; [done|]. intros h'.
           rewrite (Hother c0 ch0) by done. apply Hiff0.
      * intros c0 ls0 i h' Hl0 Hi. rewrite Hcnt'.
        rewrite Hl', lookup_insert in Hl0. case_decide as Hc0.
        -- subst c0. injection Hl0 as <-. rewrite lookup_insert in Hi. case_decide.
           ++ subst i. injection Hi as <-. split; [done|].
              exists (N.succ (listenerIdCounter w)). split; [done|lia].
           ++ destruct (Hids _ _ _ _ Hl Hi) as (Hn & k & Hk & Hle).
              split; [done|]. exists k. split; [done|lia].
        -- destruct (Hids _ _ _ _ Hl0 Hi) as (Hn & k & Hk & Hle).
           split; [done|]. exists k. split; [done|lia].
      * intros c1 c2 ls1 ls2 i Hl1 Hl2 Hi1 Hi2.
        rewrite Hl', lookup_insert in Hl1. rewrite Hl', lookup_insert in Hl2.
        destruct (decide (c = c1)) as [<-|Hn1], (decide (c = c2)) as [<-|Hn2];
          [done|..].
        -- injection Hl1 as <-. rewrite lookup_insert in Hi1. case_decide.
           ++ subst i. rewrite (Hid _ _ Hl2) in Hi2. by destruct Hi2.
           ++ by apply (Hchan c c2 ls ls2 i).
        -- injection Hl2 as <-. rewrite lookup_insert in Hi2. case_decide.
           ++ subst i. rewrite (Hid _ _ Hl1) in Hi1. by destruct Hi1.
           ++ by apply (Hchan c1 c ls1 ls i).
        -- by apply (Hchan c1 c2 ls1 ls2 i).
      * intros c0 ls0 i j h' Hl0 Hi Hj.
        rewrite Hl', lookup_insert in Hl0. case_decide as Hc0; [|by eapply Hhand].
        subst c0. injection Hl0 as <-.
        assert (∀ i', ls !! i' = Some h → False) as Hnew.
        { intros i' Hi'. pose proof (tracked_below w c ls i' h Hw Hl Hi'). simpl in *. lia. }
        rewrite lookup_insert in Hi. rewrite lookup_insert in Hj.
        destruct (decide (id = i)) as [<-|Hni], (decide (id = j)) as [<-|Hnj]; [done|..].
        -- injection Hi as <-. by destruct (Hnew j).
        -- injection Hj as <-. by destruct (Hnew i).
        -- by eapply Hhand.
    + rewrite (subscribe_handle_only c cb ch w Hc Hl). cbn [snd]. fold h.
      set (w' := set_objects _ _).
      destruct (Hframe w') as (H1 & H2 & H3 & Hother); [done..|].
      assert (listeners w' = listeners w) as Hl' by done.
      assert (listenerIdCounter w' = N.succ (listenerIdCounter w)) as Hcnt' by done.
      split; [done|done|done|..].
      * intros c0 ls0 Hl0. rewrite Hl' in Hl0.
        destruct (Hatt _ _ Hl0) as (ch0 & Hch0 & Hiff0). exists ch0.
        split; [done|]. intros h'. rewrite (Hother c0 ch0); [apply Hiff0| |done].
        intros ->. by rewrite Hl in Hl0.
      * intros c0 ls0 i h' Hl0 Hi. rewrite Hl' in Hl0. rewrite Hcnt'.
        destruct (Hids _ _ _ _ Hl0 Hi) as (Hn & k & Hk & Hle).
        split; [done|]. exists k. split; [done|lia].
      * exact Hchan.
      * exact Hhand.
  - rewrite (subscribe_unknown c cb w Hc). cbn [snd]. fold id.
    set (h := {| handler_addr := S (next_ref w); handler_channelName := c;
                 handler_callback := cb |}).
    set (w' := set_listeners _ _).
    assert (channels w' = <[c := next_ref w]> (channels w)) as Hc' by done.
    assert (next_ref w' = S (S (next_ref w))) as Hn' by done.
    assert (listenerIdCounter w' = N.succ (listenerIdCounter w)) as Hcnt' by done.
    assert (objects w' !! next_ref w
            = Some {| name := c; closed := false; message_listeners := [h] |}) as Hnew.
    { unfold w'. store. by rewrite lookup_alter_eq, lookup_insert_eq. }
    assert (∀ r, r ≠ next_ref w → objects w' !! r = objects w !! r) as Hold.
    { intros r Hr. unfold w'. store.
      by rewrite lookup_alter_ne, lookup_insert_ne by done. }
    assert (∀ c0 ch0, channels w !! c0 = Some ch0 → ch0 ≠ next_ref w) as Hne.
    { intros c0 ch0 Hc0. destruct (Hopen _ _ Hc0) as [? _]. lia. }
    assert (∀ c0 ls0, listeners w' !! c0 = Some ls0 →
              (c0 = c ∧ ls0 = <[id := h]> ∅) ∨ (c0 ≠ c ∧ listeners w !! c0 = Some ls0))
      as Hls.
    { intros c0 ls0 Hl0. unfold w' in Hl0. store_all.
      rewrite lookup_insert in Hl0. case_decide.
      - left. split; [done|]. by injection Hl0 as <-.
      - right. split; [done|]. by rewrite lookup_insert_ne in Hl0. }
    split.
    + intros c0 ch0 Hc0. rewrite Hc', lookup_insert in Hc0. rewrite Hn'.
      case_decide.
      * injection Hc0 as <-. split; [lia|]. by eexists.
      * destruct (Hopen _ _ Hc0) as (Hlt0 & o0 & Ho0 & Hcl0 & Hn0).
        split; [lia|]. exists o0. rewrite Hold by lia. done.
    + intros c1 c2 ch0. rewrite Hc', !lookup_insert.
      destruct (decide (c = c1)) as [<-|Hn1], (decide (c = c2)) as [<-|Hn2]; [done|..].
      * intros [= <-] Hc2. by destruct (Hne _ _ Hc2).
      * intros Hc1 [= <-]. by destruct (Hne _ _ Hc1).
      * apply Hdist.
    + rewrite Hn'. intros r o h' Ho Hin.
      destruct (decide (r = next_ref w)) as [->|Hr].
      * rewrite Hnew in Ho. injection Ho as <-. simpl in Hin.
        apply list_elem_of_singleton in Hin as ->. simpl. lia.
      * rewrite Hold in Ho by done. specialize (Hbelow _ _ _ Ho Hin). lia.
    + intros c0 ls0 [[-> ->]|[Hc0 Hl0]]%Hls.
      * exists (next_ref w). split; [by rewrite Hc', lookup_insert_eq|].
        intros h'. unfold adapters_of. rewrite Hnew. simpl.
        rewrite list_elem_of_singleton. split.
        -- intros ->. exists id. by rewrite lookup_insert_eq.
        -- intros [i Hi]. rewrite lookup_insert in Hi. case_decide; [|done].
           by injection Hi as <-.
      * destruct (Hatt _ _ Hl0) as (ch0 & Hch0 & Hiff0). exists ch0.
        split; [by rewrite Hc', lookup_insert_ne|].
        intros h'. rewrite (adapters_of_ext ch0 w w'); [apply Hiff0|].
        apply Hold. by eapply Hne.
    + intros c0 ls0 i h' [[-> ->]|[Hc0 Hl0]]%Hls Hi.
      * rewrite lookup_insert in Hi. case_decide; [|done]. subst i.
        injection Hi as <-. split; [done|].
        exists (N.succ (listenerIdCounter w)). split; [done|]. rewrite Hcnt'. lia.
      * destruct (Hids _ _ _ _ Hl0 Hi) as (Hn & k & Hk & Hle).
        split; [done|]. exists k. split; [done|]. rewrite Hcnt'. lia.
    + intros c1 c2 ls1 ls2 i [[-> ->]|[Hc1 Hl1]]%Hls [[-> ->]|[Hc2 Hl2]]%Hls Hi1 Hi2;
        [done|..].
      * rewrite lookup_insert in Hi1. case_decide; [|by destruct Hi1]. subst i.
        rewrite (Hid _ _ Hl2) in Hi2. by destruct Hi2.
      * rewrite lookup_insert in Hi2. case_decide; [|by destruct Hi2]. subst i.
        rewrite (Hid _ _ Hl1) in Hi1. by destruct Hi1.
      * by apply (Hchan c1 c2 ls1 ls2 i).
    + intros c0 ls0 i j h' [[-> ->]|[Hc0 Hl0]]%Hls Hi Hj; [|by eapply Hhand].
      rewrite lookup_insert in Hi. rewrite lookup_insert in Hj.
      do 2 case_decide; try done. congruence.
Qed.

Lemma consistent_unsubscribe (c i : string) :
  preserves consistent (unsubscribe c i : M World unit).
Proof.
  intros w Hw. pose proof Hw as [Hopen Hdist Hbelow Hatt Hids Hchan Hhand].
  destruct (channels w !! c) as [ch|] eqn:Hc;
    [|by rewrite unsubscribe_unknown by (by left)].
  destruct (listeners w !! c) as [ls|] eqn:Hl;
    [|by rewrite unsubscribe_unknown by (right; by rewrite Hl)].
  destruct (ls !! i) as [h|] eqn:Hi;
    [|by rewrite unsubscribe_unknown by (right; by rewrite Hl)].
  rewrite (unsubscribe_known c i ch ls h w Hc Hl Hi). cbn [snd].
  set (w' := set_listeners _ _).
  assert (channels w' = channels w) as Hc' by done.
  assert (next_ref w' = next_ref w) as Hn' by done.
  assert (listenerIdCounter w' = listenerIdCounter w) as Hcnt' by done.
  assert (listeners w' = <[c := delete i ls]> (listeners w)) as Hl' by done.
  assert (objects w' = alter (remove_listener h) ch (objects w)) as Ho' by done.
  assert (∀ c0 ls0, listeners w' !! c0 = Some ls0 →
            (c0 = c ∧ ls0 = delete i ls) ∨ (c0 ≠ c ∧ listeners w !! c0 = Some ls0))
    as Hls.
  { intros c0 ls0 Hl0. rewrite Hl', lookup_insert in Hl0. case_decide.
    - left. split; [done|]. by injection Hl0 as <-.
    - right. done. }
  split.
  - intros c0 ch0 Hc0. rewrite Hc' in Hc0. rewrite Hn', Ho'.
    destruct (Hopen _ _ Hc0) as (Hlt0 & o0 & Ho0 & Hcl0 & Hn0).
    split; [done|]. rewrite lookup_alter. case_decide; [subst ch0|by exists o0].
    rewrite Ho0. simpl. by eexists.
  - intros c1 c2 ch0. rewrite Hc'. apply Hdist.
  - rewrite Hn'. apply (adapters_below_shrink _ w); [|done].
    intros r o' Ho. rewrite Ho', lookup_alter in Ho. case_decide; [subst r|by exists o'].
    destruct (objects w !! ch) as [o|]; [|done]. injection Ho as <-.
    exists o. split; [done|]. simpl. intros x Hx%list_elem_of_filter. by destruct Hx.
  - intros c0 ls0 [[-> ->]|[Hc0 Hl0]]%Hls.
    + exists ch. split; [by rewrite Hc'|]. intros h'.
      rewrite (adapters_of_remove h ch w w') by (rewrite Ho'; apply lookup_alter_eq).
      rewrite list_elem_of_filter. destruct (Hatt _ _ Hl) as (ch' & Hch' & Hiff).
      rewrite Hc in Hch'. injection Hch' as <-. rewrite Hiff. split.
      * intros [Hne [j Hj]]. exists j. rewrite lookup_delete_ne; [done|].
        intros <-. rewrite Hi in Hj. by injection Hj.
      * intros [j Hj]. apply lookup_delete_Some in Hj as [Hne Hj].
        split; [|by exists j]. intros ->. destruct Hne. by eapply Hhand.
    + destruct (Hatt _ _ Hl0) as (ch0 & Hch0 & Hiff0). exists ch0.
      split; [by rewrite Hc'|]. intros h'.
      rewrite (adapters_of_ext ch0 w w'); [apply Hiff0|].
      rewrite Ho'. apply lookup_alter_ne. intros <-. by destruct Hc0; eapply Hdist.
  - intros c0 ls0 j h' [[-> ->]|[Hc0 Hl0]]%Hls Hj; rewrite Hcnt'.
    + apply lookup_delete_Some in Hj as [_ Hj]. by eapply Hids.
    + by eapply Hids.
  - assert (∀ c0 ls0 j, listeners w' !! c0 = Some ls0 → is_Some (ls0 !! j) →
              ∃ ls0', listeners w !! c0 = Some ls0' ∧ is_Some (ls0' !! j)) as Hback.
    { intros c0 ls0 j [[-> ->]|[Hc0 Hl0]]%Hls Hj.
      - exists ls. split; [done|]. by apply lookup_delete_is_Some in Hj as [_ ?].
      - by exists ls0. }
    intros c1 c2 ls1 ls2 j Hl1 Hl2 Hj1 Hj2.
    destruct (Hback _ _ _ Hl1 Hj1) as (ls1' & Hl1' & Hj1').
    destruct (Hback _ _ _ Hl2 Hj2) as (ls2' & Hl2' & Hj2').
    by apply (Hchan c1 c2 ls1' ls2' j).
  - intros c0 ls0 j1 j2 h' [[-> ->]|[Hc0 Hl0]]%Hls Hj1 Hj2; [|by eapply Hhand].
    apply lookup_delete_Some in Hj1 as [_ Hj1]. apply lookup_delete_Some in Hj2 as [_ Hj2].
    by eapply Hhand.
Qed.

(** A channel [broadcast] created. *)
Lemma consistent_new_channel (c : string) (w w' : World) :
  channels w !! c = None →
  channels w' = <[c := next_ref w]> (channels w) →
  listeners w' = listeners w →
  listenerIdCounter w' = listenerIdCounter w →
  objects w' = <[next_ref w := {| name := c; closed := false; message_listeners := [] |}]>
                 (objects w) →
  next_ref w' = S (next_ref w) →
  consistent w → consistent w'.
Proof.
  intros Hc Hc' Hl' Hcnt' Ho' Hn' [Hopen Hdist Hbelow Hatt Hids Hchan Hhand].
  assert (∀ c0 ch0, channels w !! c0 = Some ch0 → ch0 ≠ next_ref w) as Hne.
  { intros c0 ch0 Hc0. destruct (Hopen _ _ Hc0) as [? _]. lia. }
  split.
  - intros c0 ch0 Hc0. rewrite Hc', lookup_insert in Hc0. rewrite Hn', Ho'.
    case_decide.
    + injection Hc0 as <-. split; [lia|]. rewrite lookup_insert_eq. by eexists.
    + destruct (Hopen _ _ Hc0) as (Hlt0 & o0 & Ho0 & Hcl0 & Hn0).
      split; [lia|]. exists o0. rewrite lookup_insert_ne by lia. done.
  - intros c1 c2 ch0. rewrite Hc', !lookup_insert.
    destruct (decide (c = c1)) as [<-|Hn1], (decide (c = c2)) as [<-|Hn2]; [done|..].
    + intros [= <-] Hc2. by destruct (Hne _ _ Hc2).
    + intros Hc1 [= <-]. by destruct (Hne _ _ Hc1).
    + apply Hdist.
  - rewrite Hn'. intros r o h Ho Hin. rewrite Ho', lookup_insert in Ho. case_decide.
    + injection Ho as <-. by apply elem_of_nil in Hin.
    + specialize (Hbelow _ _ _ Ho Hin). lia.
  - intros c0 ls0 Hl0. rewrite Hl' in Hl0.
    destruct (Hatt _ _ Hl0) as (ch0 & Hch0 & Hiff0). exists ch0. split.
    + rewrite Hc', lookup_insert_ne; [done|]. intros <-. by rewrite Hc in Hch0.
    + intros h. rewrite (adapters_of_ext ch0 w w'); [apply Hiff0|].
      rewrite Ho'. apply lookup_insert_ne. intros Heq. by apply (Hne _ _ Hch0).
  - intros c0 ls0 i h Hl0 Hi. rewrite Hl' in Hl0. rewrite Hcnt'. by eapply Hids.
  - intros c1 c2 ls1 ls2 i. rewrite Hl'. apply Hchan.
  - intros c0 ls0 i j h. rewrite Hl'. apply Hhand.
Qed.

Lemma consistent_broadcast (c : string) (data : option Data) :
  preserves consistent (broadcast serializable c data).
Proof.
  intros w Hw. destruct (channels w !! c) as [ch|] eqn:Hc.
  - rewrite (broadcast_known c data ch w Hc). cbn [snd].
    apply (consistent_same_store w); [..|done];
      by destruct (is_closed ch w), (can_clone serializable data).
  - rewrite (broadcast_unknown c data w Hc). cbn [snd].
    apply (consistent_new_channel c w); [done|..|done];
      by destruct (can_clone serializable data).
Qed.

Lemma consistent_close (c : string) : preserves consistent (close c : M World unit).
Proof.
  intros w Hw. pose proof Hw as [Hopen Hdist Hbelow Hatt Hids Hchan Hhand].
  destruct (channels w !! c) as [ch|] eqn:Hc; [|by rewrite close_unknown by (by left)].
  destruct (listeners w !! c) as [ls|] eqn:Hl; [|by rewrite close_unknown by (by right)].
  rewrite (close_known c ch ls w Hc Hl). cbn [snd].
  set (w' := set_listeners _ _).
  assert (channels w' = delete c (channels w)) as Hc' by done.
  assert (listeners w' = delete c (listeners w)) as Hl' by done.
  assert (next_ref w' = next_ref w) as Hn' by done.
  assert (listenerIdCounter w' = listenerIdCounter w) as Hcnt' by done.
  assert (∀ r, r ≠ ch → objects w' !! r = objects w !! r) as Hold.
  { intros r Hr. unfold w'. store.
    rewrite lookup_alter_ne by done. by apply lookup_remove_all_ne. }
  assert (∀ c0 ch0, channels w' !! c0 = Some ch0 →
            c0 ≠ c ∧ ch0 ≠ ch ∧ channels w !! c0 = Some ch0) as Hch.
  { intros c0 ch0 Hc0. rewrite Hc' in Hc0. apply lookup_delete_Some in Hc0 as [Hne Hc0].
    split_and!; [done| |done]. intros ->. destruct Hne. by eapply Hdist. }
  assert (∀ c0 ls0, listeners w' !! c0 = Some ls0 → listeners w !! c0 = Some ls0 ∧ c0 ≠ c)
    as Hls.
  { intros c0 ls0 Hl0. rewrite Hl' in Hl0. by apply lookup_delete_Some in Hl0 as [? ?]. }
  split.
  - intros c0 ch0 (Hne & Hnch & Hc0)%Hch. rewrite Hn', Hold by done. by apply Hopen.
  - intros c1 c2 ch0 (_ & _ & Hc1)%Hch (_ & _ & Hc2)%Hch. by eapply Hdist.
  - rewrite Hn'. apply (adapters_below_shrink _ w); [|done].
    intros r o' Ho. destruct (decide (r = ch)) as [->|Hr].
    + unfold w' in Ho. store_all. rewrite lookup_alter_eq, lookup_remove_all in Ho.
      destruct (objects w !! ch) as [o|]; [|done]. simpl in Ho. injection Ho as <-.
      exists o. split; [done|]. simpl. intros x Hx%list_elem_of_filter. by destruct Hx.
    + rewrite Hold in Ho by done. by exists o'.
  - intros c0 ls0 [Hl0 Hne]%Hls.
    destruct (Hatt _ _ Hl0) as (ch0 & Hch0 & Hiff0). exists ch0.
    split; [by rewrite Hc', lookup_delete_ne|].
    intros h. rewrite (adapters_of_ext ch0 w w'); [apply Hiff0|].
    apply Hold. intros ->. destruct Hne. by eapply Hdist.
  - intros c0 ls0 i h [Hl0 _]%Hls Hi. rewrite Hcnt'. by eapply Hids.
  - intros c1 c2 ls1 ls2 i [Hl1 _]%Hls [Hl2 _]%Hls. by apply Hchan.
  - intros c0 ls0 i j h [Hl0 _]%Hls Hi Hj. by eapply Hhand.
Qed.

(** One round of the loop of [closeAll]: the adapters the listener map
    holds for [c] are detached from [ch], and [ch] is closed. *)
Lemma closeAll_step (c : string) (ch : ref) (w : World) :
  (let! listeners := gets (λ w, listeners w !! c) in
   match listeners with
   | Some ls => for_each (λ listener, removeEventListener ch listener) (map_to_list ls).*2
   | None => ret tt
   end ;;;
   BroadcastChannel_close ch) w
  = (Normal tt,
     set_objects
       (λ objs, alter mark_closed ch
                  (foldl (λ objs h, alter (remove_listener h) ch objs) objs
                     match listeners w !! c with
                     | Some ls => (map_to_list ls).*2
                     | None => []
                     end)) w).
Proof.
  unfold bind at 1 2. unfold gets at 1. cbn [fst snd].
  destruct (listeners w !! c) as [ls|].
  - rewrite remove_all. by unfold BroadcastChannel_close, modify.
  - by unfold ret, BroadcastChannel_close, modify.
Qed.

Lemma elem_of_values (ls : gmap string Handler) (h : Handler) :
  h ∈ (map_to_list ls).*2 ↔ ∃ i, ls !! i = Some h.
Proof.
  rewrite list_elem_of_fmap. split.
  - intros ([i h'] & -> & Hin%elem_of_map_to_list). by exists i.
  - intros [i Hi]. exists (i, h). split; [done|]. by apply elem_of_map_to_list.
Qed.

(** The loop of [closeAll] over the entries of the channels map: it
    writes the channel objects only, leaves alone those that are no
    handle of an entry, and on the others it only detaches adapters and
    closes; the handle of every entry ends up closed and without the
    adapters the listener map holds for the entry's channel. *)
Lemma closeAll_loop_spec (entries : list (string * ref)) (w : World) :
  ∃ F,
    for_each (λ entry : string * ref,
      let! listeners := gets (λ w, listeners w !! entry.1) in
      match listeners with
      | Some ls =>
        for_each (λ listener, removeEventListener entry.2 listener) (map_to_list ls).*2
      | None => ret tt
      end ;;;
      BroadcastChannel_close entry.2) entries w
    = (Normal tt, set_objects F w) ∧
    (∀ r, (∀ c, (c, r) ∉ entries) → F (objects w) !! r = objects w !! r) ∧
    (∀ r o', F (objects w) !! r = Some o' →
       ∃ o, objects w !! r = Some o ∧ name o' = name o ∧
            message_listeners o' `sublist_of` message_listeners o ∧
            (closed o = true → closed o' = true)) ∧
    (∀ r, is_Some (objects w !! r) → is_Some (F (objects w) !! r)) ∧
    (∀ c ch o', (c, ch) ∈ entries → F (objects w) !! ch = Some o' →
       closed o' = true ∧
       ∀ ls i h, listeners w !! c = Some ls → ls !! i = Some h →
                 h ∉ message_listeners o').
Proof.
  revert w. induction entries as [|[c ch] entries IH]; intros w.
  - exists (λ objs, objs). cbn [for_each]. unfold ret. rewrite set_objects_id.
    split_and!; [done|done| |done|].
    + intros r o' Ho'. by exists o'.
    + intros c ch o' Hin. by apply elem_of_nil in Hin.
  - cbn [for_each]. unfold bind at 1. cbn [fst snd].
    rewrite (closeAll_step c ch w).
    set (hs := match listeners w !! c with
               | Some ls => (map_to_list ls).*2
               | None => []
               end).
    set (G := λ objs : gmap ref BroadcastChannel,
                alter mark_closed ch
                  (foldl (λ objs h, alter (remove_listener h) ch objs) objs hs)).
    destruct (IH (set_objects G w)) as (F & HF & Hframe & Hshrink & Hkeep & Hdone).
    store_all.
    assert (∀ r, r ≠ ch → G (objects w) !! r = objects w !! r) as HGne.
    { intros r Hr. unfold G. rewrite lookup_alter_ne by done.
      by apply lookup_remove_all_ne. }
    assert (G (objects w) !! ch
            = (λ o, {| name := name o; closed := true;
                       message_listeners :=
                         filter (λ h, h ∉ hs) (message_listeners o) |})
                <$> objects w !! ch) as HGch.
    { unfold G. rewrite lookup_alter_eq, lookup_remove_all.
      by destruct (objects w !! ch). }
    assert (∀ r o1, G (objects w) !! r = Some o1 →
              ∃ o, objects w !! r = Some o ∧ name o1 = name o ∧
                   message_listeners o1 `sublist_of` message_listeners o ∧
                   (closed o = true → closed o1 = true)) as HGshrink.
    { intros r o1 Ho1. destruct (decide (r = ch)) as [->|Hr].
      - rewrite HGch in Ho1. destruct (objects w !! ch) as [o|]; [|done].
        injection Ho1 as <-. exists o. split_and!; [done|done| |done].
        simpl. apply sublist_filter.
      - rewrite HGne in Ho1 by done. by exists o1. }
    exists (λ objs, F (G objs)). rewrite HF. split_and!.
    + done.
    + intros r Hr. rewrite Hframe.
      * apply HGne. intros ->. apply (Hr c). by left.
      * intros c0 Hin. apply (Hr c0). by right.
    + intros r o' Ho'. destruct (Hshrink _ _ Ho') as (o1 & Ho1 & Hn1 & Hs1 & Hc1).
      destruct (HGshrink _ _ Ho1) as (o & Ho & Hn & Hs & Hc).
      exists o. split_and!; [done|congruence|by etrans|auto].
    + intros r Hr. apply Hkeep. destruct (decide (r = ch)) as [->|Hne].
      * rewrite HGch. destruct Hr as [o ->]. by eexists.
      * by rewrite HGne.
    + intros c0 ch0 o' Hin Ho'. apply elem_of_cons in Hin as [[= -> ->]|Hin].
      * destruct (Hshrink _ _ Ho') as (o1 & Ho1 & Hn1 & Hs1 & Hc1).
        rewrite HGch in Ho1. destruct (objects w !! ch) as [o|]; [|done].
        injection Ho1 as <-. split; [by apply Hc1|].
        intros ls i h Hl Hi Hh. apply (sublist_subseteq _ _ Hs1) in Hh. simpl in Hh.
        apply list_elem_of_filter in Hh as [Hh _]. apply Hh.
        unfold hs. rewrite Hl. apply elem_of_values. by exists i.
      * by apply (Hdone c0 ch0 o').
Qed.

(** [closeAll] as a whole. *)
Lemma closeAll_spec (w : World) :
  ∃ F,
    closeAll w
    = (Normal tt, set_listeners (λ _, ∅) (set_channels (λ _, ∅) (set_objects F w))) ∧
    (∀ r, (∀ c, channels w !! c ≠ Some r) → F (objects w) !! r = objects w !! r) ∧
    (∀ r o', F (objects w) !! r = Some o' →
       ∃ o, objects w !! r = Some o ∧ name o' = name o ∧
            message_listeners o' `sublist_of` message_listeners o ∧
            (closed o = true → closed o' = true)) ∧
    (∀ r, is_Some (objects w !! r) → is_Some (F (objects w) !! r)) ∧
    (∀ c ch o', channels w !! c = Some ch → F (objects w) !! ch = Some o' →
       closed o' = true ∧
       ∀ ls i h, listeners w !! c = Some ls → ls !! i = Some h →
                 h ∉ message_listeners o').
Proof.
  unfold closeAll. unfold bind at 1, gets at 1. cbn [fst snd].
  destruct (closeAll_loop_spec (map_to_list (channels w)) w)
    as (F & HF & Hframe & Hshrink & Hkeep & Hdone).
  exists F. unfold bind at 1. rewrite HF. split_and!.
  - by unfold bind, modify.
  - intros r Hr. apply Hframe. intros c Hin%elem_of_map_to_list. by apply (Hr c).
  - exact Hshrink.
  - exact Hkeep.
  - intros c ch o' Hc. apply Hdone. by apply elem_of_map_to_list.
Qed.

Lemma consistent_closeAll : preserves consistent (closeAll : M World unit).
Proof.
  intros w Hw. destruct (closeAll_spec w) as (F & -> & _ & Hshrink & _ & _). cbn [snd].
  split; try (repeat intro; store_all;
    match goal with H : ∅ !! _ = Some _ |- _ => by rewrite lookup_empty in H end).
  apply (adapters_below_shrink _ w); [|apply (c_below w Hw)].
  intros r o' Ho'. destruct (Hshrink r o' Ho') as (o & Ho & _ & Hs & _).
  exists o. split; [done|]. by apply sublist_subseteq.
Qed.

Lemma consistent_run_call (call : Call) :
  preserves consistent (run_call serializable call).
Proof.
  destruct call as [c cb|c i|c data|c|]; simpl.
  - apply preserves_bind; [apply consistent_subscribe|].
    intros id w Hw. by apply (consistent_same_store w).
  - apply consistent_unsubscribe.
  - apply consistent_broadcast.
  - apply consistent_close.
  - apply consistent_closeAll.
Qed.

(** Every state a service reaches is consistent. *)
Lemma reachable_consistent (es : list Event) :
  consistent (run_events serializable behaviour es init).
Proof.
  apply preserves_run_events.
  - apply consistent_run_call.
  - intros f w Hw. by apply (consistent_same_store w).
  - intros f w Hw. by apply (consistent_same_store w).
  - apply consistent_init.
Qed.

(** ** No adapter is attached twice *)








(** ** What holds in every reachable state *)



(** X14. In every state a service can reach, an active channel has a
    handle that exists, is open and carries the channel's name, and no
    two channels share a handle. *)
Theorem active_channels_have_open_handles (es : list Event) :
  let w := run_events serializable behaviour es init in
  (∀ c ch, channels w !! c = Some ch →
     is_closed ch w = false ∧ ∃ o, objects w !! ch = Some o ∧ name o = c) ∧
  (∀ c1 c2 ch, channels w !! c1 = Some ch → channels w !! c2 = Some ch → c1 = c2).
Proof.
  intros w. pose proof (reachable_consistent es) as Hw. fold w in Hw. split.
  - intros c ch Hc. destruct (c_open w Hw _ _ Hc) as (_ & o & Ho & Hcl & Hn).
    split; [|by exists o]. unfold is_closed. by rewrite Ho.
  - apply (c_distinct w Hw).
Qed.


(** X16. In every state a service can reach, [broadcast(c, data)] never
    meets a closed handle: a payload that can be cloned is handed to the
    transport on the handle of [c], once, and nothing is logged; a payload
    that cannot is dropped with one console line for the clone error.
    Either way no callback is called and no listener map or id counter
    changes; an active channel keeps its handle. *)
Theorem broadcast_posts_unless_uncloneable (es : list Event) (c : string)
    (data : option Data) :
  let w := run_events serializable behaviour es init in
  let r := broadcast serializable c data w in
  listeners r.2 = listeners w ∧
  listenerIdCounter r.2 = listenerIdCounter w ∧
  calls r.2 = calls w ∧
  ∃ ch, channels r.2 !! c = Some ch ∧
        (∀ ch0, channels w !! c = Some ch0 → ch0 = ch) ∧
        if can_clone serializable data
        then posted r.2 = posted w ++ [(ch, data)] ∧ console r.2 = console w
        else posted r.2 = posted w ∧
             console r.2 = console w ++ [(broadcast_error_message c, DataCloneError)].
Proof.
  intros w r. pose proof (reachable_consistent es) as Hw. fold w in Hw. unfold r.
  destruct (channels w !! c) as [ch|] eqn:Hc.
  - rewrite (broadcast_known c data ch w Hc). cbn [snd].
    destruct (c_open w Hw _ _ Hc) as (_ & o & Ho & Hcl & _).
    assert (is_closed ch w = false) as -> by (unfold is_closed; by rewrite Ho).
    split_and!; [by destruct (can_clone serializable data)..|].
    exists ch. split_and!.
    + by destruct (can_clone serializable data).
    + by intros ch0 [= ->].
    + by destruct (can_clone serializable data).
  - rewrite (broadcast_unknown c data w Hc). cbn [snd].
    split_and!; [by destruct (can_clone serializable data)..|].
    exists (next_ref w). split_and!.
    + destruct (can_clone serializable data); store; apply lookup_insert_eq.
    + done.
    + by destruct (can_clone serializable data).
Qed.

(** X17. [unsubscribe] with the same arguments a second time changes
    nothing, in any state. *)
Theorem unsubscribe_twice (c i : string) (w : World) :
  unsubscribe c i (unsubscribe c i w).2 = (Normal tt, (unsubscribe c i w).2).
Proof.
  assert (unsubscribe c i w = (Normal tt, w) →
          unsubscribe c i (unsubscribe c i w).2 = (Normal tt, (unsubscribe c i w).2))
    as Hnoop by (intros H; rewrite H; cbn [snd]; exact H).
  destruct (channels w !! c) as [ch|] eqn:Hc;
    [|apply Hnoop, unsubscribe_unknown; by left].
  destruct (listeners w !! c) as [ls|] eqn:Hl;
    [|apply Hnoop, unsubscribe_unknown; right; by rewrite Hl].
  destruct (ls !! i) as [h|] eqn:Hi;
    [|apply Hnoop, unsubscribe_unknown; right; by rewrite Hl].
  rewrite (unsubscribe_known c i ch ls h w Hc Hl Hi). cbn [snd].
  apply unsubscribe_unknown. right. store.
  rewrite lookup_insert_eq. simpl. apply lookup_delete_eq.
Qed.

Lemma closeAll_closed (w : World) :
  channels w = ∅ → listeners w = ∅ → closeAll w = (Normal tt, w).
Proof.
  intros Hc Hl. unfold closeAll, bind, gets, modify. cbn [fst snd].
  rewrite Hc, map_to_list_empty. cbn [for_each]. unfold ret.
  destruct w. simpl in *. by subst.
Qed.

(** X18. [closeAll()] returns and leaves no channel active and no
    listener map, in any state; the id counter keeps its value. Every
    handle that was in the channels map and exists is closed afterwards,
    and none of the adapters the listener map held for its channel is
    attached to it any more. A second [closeAll()] changes nothing. *)
Theorem closeAll_closes_every_channel (w : World) :
  let w' := (closeAll w).2 in
  (closeAll w).1 = Normal tt ∧
  getActiveChannels w' = [] ∧
  (∀ c, isChannelActive c w' = false ∧ listeners w' !! c = None) ∧
  listenerIdCounter w' = listenerIdCounter w ∧
  (∀ c ch, channels w !! c = Some ch → is_Some (objects w !! ch) →
     is_closed ch w' = true) ∧
  (∀ c ch ls i h, channels w !! c = Some ch → listeners w !! c = Some ls →
     ls !! i = Some h → h ∉ adapters_of ch w') ∧
  closeAll w' = (Normal tt, w').
Proof.
  intros w'. unfold w'.
  destruct (closeAll_spec w) as (F & -> & _ & _ & Hkeep & Hdone). cbn [fst snd].
  split_and!.
  - done.
  - unfold getActiveChannels. store. by rewrite map_to_list_empty.
  - intros c. unfold isChannelActive. store. rewrite !lookup_empty. split; [|done].
    apply bool_decide_eq_false_2. by intros [? ?].
  - done.
  - intros c ch Hc Hobj. destruct (Hkeep _ Hobj) as [o' Ho'].
    destruct (Hdone c ch o' Hc Ho') as [Hcl _]. unfold is_closed. store. by rewrite Ho'.
  - intros c ch ls i h Hc Hl Hi Hin. apply elem_of_adapters_of in Hin as (o' & Ho' & Hin).
    store_all. destruct (Hdone c ch o' Hc Ho') as [_ Hgone]. by apply (Hgone ls i h).
  - by apply closeAll_closed.
Qed.

(** X19. The two introspection methods agree, in any state:
    [isChannelActive(c)] is true exactly for the names that
    [getActiveChannels()] lists, and the list has no name twice. *)
Theorem introspection_agrees (w : World) :
  (∀ c, isChannelActive c w = true ↔ c ∈ getActiveChannels w) ∧
  NoDup (getActiveChannels w).
Proof.
  split; [intros c; apply isChannelActive_spec|].
  unfold getActiveChannels. apply NoDup_fst_map_to_list.
Qed.

(** ** [subscribe], [unsubscribe] and [close] in a consistent store *)













(** X26. The adapter around a callback that calls nothing back: it
    notes the call, and when the callback throws it writes one console
    line, headed by the message that names the adapter's channel, with
    the value thrown; it returns either way and touches nothing else. *)
Theorem messageHandler_logs_what_callback_throws
    (h : Handler) (d : option Data) (w : World) :
  script (behaviour (handler_callback h) d) = [] →
  messageHandler serializable behaviour h d w
  = (Normal tt,
     set_console
       (λ l, l ++ match completion (behaviour (handler_callback h) d) with
                  | Some e => [(callback_error_message (handler_channelName h), e)]
                  | None => []
                  end)
       (set_calls (λ l, l ++ [(handler_callback h, d)]) w)).
Proof.
  intros Hscript. unfold messageHandler, try_catch, call_callback, bind, modify.
  rewrite Hscript. cbn [for_each fst snd]. unfold ret.
  destruct (completion (behaviour (handler_callback h) d)) as [e|].
  - by unfold throw, console_error, modify.
  - destruct w. unfold set_console, set_calls. simpl. by rewrite app_nil_r.
Qed.


(** ** The effect of [useBroadcastOn] *)



End Facts.
End BroadcastServiceFacts.

(** * Failure isolation in both buses *)

Section Isolation.

Context {Data : Type}.
Variable listener_behaviour
  : EventService.Listener → @EventService.EventPayload Data → @EventService.Body Data.

Context {Message : Type}.
Variable serializable : Message → bool.
Variable callback_behaviour
  : BroadcastService.Callback → option Message → @BroadcastService.Body Message.


End Isolation.

(** * The theorems at sample inputs *)

Import Examples.

Lemma quiet_first_throws (l : EventService.Listener) : EventService.quiet first_throws l.
Proof. by intros p. Qed.


Lemma reachable_one_on_x : EventService.reachable first_throws one_on_x.
Proof. apply EventService.reachable_call, EventService.reachable_init. Defined.



Lemma C6_witness :
  EventService.reachable first_throws one_on_x ∧
  EventService.no_empty_entry one_on_x ∧
  ∀ n, n ∈ EventService.eventTypes one_on_x ↔ 0 < EventService.listenerCount n one_on_x.
Proof.
  split; [exact reachable_one_on_x|].
  exact (EventServiceFacts.C6_registry_has_no_empty_entry first_throws one_on_x
           reachable_one_on_x).
Defined.


(** ** The scenarios of the test suite, by evaluation *)

(** "should handle errors in listener callbacks": the listener registered
    after a throwing one is still called, and one error is logged. *)
Example throwing_listener_then_normal :
  let r := EventService.emit first_throws 2 "x" 7
             (EventService.register_all "x" [1; 2] EventService.init) in
  r.1 = Normal tt ∧ (EventService.calls r.2).*1 = [1; 2] ∧
  length (EventService.console r.2) = 1.
Proof. by vm_compute. Qed.

(** "should handle listener that adds new listeners during execution": the
    listener added during the dispatch is visited by the same dispatch. *)
Example listener_added_during_emit :
  let r := EventService.emit reentrant 5 "x" 7
             (EventService.register_all "x" [1] EventService.init) in
  r.1 = Normal tt ∧ (EventService.calls r.2).*1 = [1; 2] ∧
  EventService.registered "x" r.2 = [1; 2].
Proof. by vm_compute. Qed.

(** "should handle listener that removes itself during execution" *)
Example listener_removing_itself :
  let r := EventService.emit reentrant 5 "x" 7
             (EventService.register_all "x" [3] EventService.init) in
  r.1 = Normal tt ∧ (EventService.calls r.2).*1 = [3] ∧
  EventService.eventTypes r.2 = [] ∧
  (EventService.calls (EventService.emit reentrant 5 "x" 8 r.2).2).*1 = [3].
Proof. by vm_compute. Qed.

(** A dispatch keeps walking the set it started on: after listener [4]
    cleared [x] and registered listener [5] in a new set, listener [6] of
    the old set is still called and listener [5] is not. *)
Example emit_walks_the_detached_set :
  let r := EventService.emit reentrant 5 "x" 7
             (EventService.register_all "x" [4; 6] EventService.init) in
  r.1 = Normal tt ∧ (EventService.calls r.2).*1 = [4; 6] ∧
  EventService.registered "x" r.2 = [5].
Proof. by vm_compute. Qed.

(** "should generate unique listener IDs" *)
Example three_subscriptions :
  BroadcastService.issued
    (BroadcastService.run_events all_but_13 first_callback_throws
       [BroadcastService.Api (BroadcastService.CSubscribe "channel" 1);
        BroadcastService.Api (BroadcastService.CSubscribe "channel" 1);
        BroadcastService.Api (BroadcastService.CSubscribe "channel" 2)]
       BroadcastService.init)
  = ["listener_1"; "listener_2"; "listener_3"].
Proof. by vm_compute. Qed.

(** [subscribe] after a [broadcast] that created the channel: the call
    fails, and the adapter it attached stays on the channel. *)
Example subscribe_after_broadcast :
  let w := (BroadcastService.broadcast all_but_13 "c" (Some 5) BroadcastService.init).2 in
  let r := BroadcastService.subscribe "c" 1 w in
  r.1 = Thrown (TypeError "Cannot read properties of undefined (reading 'set')") ∧
  BroadcastService.handle_only "c" r.2 ∧
  length (BroadcastService.adapters_of 0 r.2) = 1.
Proof.
  split; [by vm_compute|]. split; [|by vm_compute].
  split; [by eexists; vm_compute|by vm_compute].
Qed.

(** * The further properties at sample inputs *)

(** ** The local bus *)


Lemma reachable_two_on_x
    (b : EventService.Listener → @EventService.EventPayload nat → @EventService.Body nat)
    (l1 l2 : EventService.Listener) :
  EventService.reachable b (two_on_x l1 l2).
Proof.
  exact (EventService.reachable_call b _ 0 (EventService.COn "x" l2)
           (EventService.reachable_call b _ 0 (EventService.COn "x" l1)
              (EventService.reachable_init b))).
Defined.

Lemma registered_one_on_x (n : string) (l : EventService.Listener) :
  l ∈ EventService.registered n one_on_x → l = 1.
Proof.
  unfold EventService.registered.
  change (EventService.listeners one_on_x) with (<["x" := 0]> (∅ : gmap string nat)).
  destruct (decide (n = "x")) as [->|Hne].
  - vm_compute. intros H. by apply list_elem_of_singleton in H.
  - rewrite lookup_insert_ne, lookup_empty by done. intros H. by apply elem_of_nil in H.
Defined.

Lemma not_registered_one_on_x (n : string) (l : EventService.Listener) :
  l ≠ 1 → l ∉ EventService.registered n one_on_x.
Proof. intros Hne Hl. by apply Hne, (registered_one_on_x n). Defined.

Lemma off_undoes_on_witness :
  EventService.reachable first_throws one_on_x ∧
  (2 ∉ EventService.registered "x" one_on_x) ∧
  let w' := (EventService.off "x" 2 (EventService.on "x" 2 one_on_x).2).2 in
  EventService.listeners w' = EventService.listeners one_on_x ∧
  EventService.eventTypes w' = EventService.eventTypes one_on_x ∧
  (∀ n', EventService.registered n' w' = EventService.registered n' one_on_x ∧
         EventService.listenerCount n' w' = EventService.listenerCount n' one_on_x) ∧
  EventService.calls w' = EventService.calls one_on_x ∧
  EventService.console w' = EventService.console one_on_x.
Proof.
  assert (2 ∉ EventService.registered "x" one_on_x) as Hl
    by (by apply not_registered_one_on_x).
  split; [exact reachable_one_on_x|]. split; [exact Hl|].
  exact (EventServiceFacts.off_undoes_on first_throws "x" 2 one_on_x reachable_one_on_x Hl).
Defined.

Lemma listenerCount_after_on_off_witness :
  EventService.reachable first_throws one_on_x ∧
  EventService.listenerCount "x" (EventService.on "x" 2 one_on_x).2 = 2 ∧
  EventService.listenerCount "x" (EventService.off "x" 1 one_on_x).2 = 0.
Proof.
  split; [exact reachable_one_on_x|].
  destruct (EventServiceFacts.listenerCount_after_on_off first_throws "x" 2 one_on_x
              reachable_one_on_x) as [Hon _].
  destruct (EventServiceFacts.listenerCount_after_on_off first_throws "x" 1 one_on_x
              reachable_one_on_x) as [_ Hoff].
  split; [rewrite Hon|rewrite Hoff]; reflexivity.
Defined.

Lemma on_off_leave_other_events_witness :
  EventService.reachable first_throws one_on_x ∧
  "x" ≠ "y" ∧
  EventService.registered "x" (EventService.on "y" 2 one_on_x).2
  = EventService.registered "x" one_on_x ∧
  EventService.registered "x" (EventService.off "y" 1 one_on_x).2
  = EventService.registered "x" one_on_x.
Proof.
  assert ("x" ≠ "y") as Hne by discriminate.
  split; [exact reachable_one_on_x|]. split; [exact Hne|].
  destruct (EventServiceFacts.on_off_leave_other_events first_throws "y" "x" 2 one_on_x
              reachable_one_on_x Hne) as (Hon & _).
  destruct (EventServiceFacts.on_off_leave_other_events first_throws "y" "x" 1 one_on_x
              reachable_one_on_x Hne) as (_ & Hoff & _).
  split; [exact Hon|exact Hoff].
Defined.

Lemma emit_without_listeners_witness :
  EventService.reachable first_throws one_on_x ∧
  EventService.listenerCount "y" one_on_x = 0 ∧
  EventService.emit first_throws 0 "y" 7 one_on_x = (Normal tt, one_on_x).
Proof.
  split; [exact reachable_one_on_x|]. split; [reflexivity|].
  exact (EventServiceFacts.emit_without_listeners first_throws "y" 7 0 one_on_x
           reachable_one_on_x eq_refl).
Defined.

Lemma emit_touches_its_event_only_witness :
  Forall (EventService.quiet first_throws) (EventService.registered "x" one_on_x) ∧
  ∃ fuel0, ∀ fuel, fuel0 ≤ fuel →
    let w' := (EventService.emit first_throws fuel "x" 7 one_on_x).2 in
    EventService.listeners w' = EventService.listeners one_on_x ∧
    EventService.invocations 2 w' = EventService.invocations 2 one_on_x ∧
    EventService.console w'
    = [(EventService.listener_error_message "x", UserError "Listener error")].
Proof.
  assert (Forall (EventService.quiet first_throws) (EventService.registered "x" one_on_x))
    as Hq by (apply Forall_forall; intros l _; apply quiet_first_throws).
  split; [exact Hq|].
  destruct (EventServiceFacts.emit_touches_its_event_only first_throws "x" 7 one_on_x Hq)
    as [fuel0 Hemit].
  exists fuel0. intros fuel Hfuel w'.
  destruct (Hemit fuel Hfuel) as (Hl & _ & _ & Hinv & Hcon).
  split; [exact Hl|]. split.
  - apply Hinv. by apply not_registered_one_on_x.
  - unfold w'. rewrite Hcon. reflexivity.
Defined.

Lemma quiet_reentrant_6 : EventService.quiet reentrant 6.
Proof. intros p. reflexivity. Defined.

Lemma elem_of_two (a b l : nat) : l ∈ [a; b] → l = a ∨ l = b.
Proof.
  intros [->|H]%elem_of_cons; [by left|].
  apply list_elem_of_singleton in H. by right.
Defined.

Lemma listener_removing_itself_runs_once_witness :
  EventService.reachable reentrant (two_on_x 3 6) ∧
  3 ∈ EventService.registered "x" (two_on_x 3 6) ∧
  (∀ p, EventService.script (reentrant 3 p) = [EventService.COff "x" 3]) ∧
  ∃ fuel0, ∀ fuel, fuel0 ≤ fuel →
    let r := EventService.emit reentrant fuel "x" 7 (two_on_x 3 6) in
    r.1 = Normal tt ∧
    (EventService.calls r.2).*1 = [3; 6] ∧
    EventService.registered "x" r.2 = [6].
Proof.
  assert (3 ∈ EventService.registered "x" (two_on_x 3 6)) as Hin by (vm_compute; by left).
  assert (∀ p, EventService.script (reentrant 3 p) = [EventService.COff "x" 3]) as Hs
    by reflexivity.
  assert (∀ l', l' ∈ EventService.registered "x" (two_on_x 3 6) → l' ≠ 3 →
            EventService.quiet reentrant l') as Hq.
  { intros l' Hl' Hne. apply (elem_of_two 3 6) in Hl' as [->| ->]; [done|].
    apply quiet_reentrant_6. }
  split; [apply reachable_two_on_x|]. split; [exact Hin|]. split; [exact Hs|].
  destruct (EventServiceFacts.listener_removing_itself_runs_once reentrant "x" 3 7
              (two_on_x 3 6) (reachable_two_on_x reentrant 3 6) Hin Hs Hq)
    as [fuel0 Hemit].
  exists fuel0. intros fuel Hfuel r.
  destruct (Hemit fuel Hfuel) as (Hret & Hcalls & _ & Hreg & _).
  split; [exact Hret|]. split.
  - unfold r. rewrite Hcalls. reflexivity.
  - unfold r. rewrite Hreg. reflexivity.
Defined.

Lemma listener_added_during_emit_is_called_witness :
  EventService.reachable reentrant (two_on_x 1 6) ∧
  1 ∈ EventService.registered "x" (two_on_x 1 6) ∧
  (2 ∉ EventService.registered "x" (two_on_x 1 6)) ∧
  (∀ p, EventService.script (reentrant 1 p) = [EventService.COn "x" 2]) ∧
  EventService.quiet reentrant 2 ∧
  ∃ fuel0, ∀ fuel, fuel0 ≤ fuel →
    let r := EventService.emit reentrant fuel "x" 7 (two_on_x 1 6) in
    r.1 = Normal tt ∧
    (EventService.calls r.2).*1 = [1; 6; 2] ∧
    EventService.registered "x" r.2 = [1; 6; 2].
Proof.
  assert (1 ∈ EventService.registered "x" (two_on_x 1 6)) as Hin by (vm_compute; by left).
  assert (2 ∉ EventService.registered "x" (two_on_x 1 6)) as Hout.
  { intros [H|H]%(elem_of_two 1 6); discriminate H. }
  assert (∀ p, EventService.script (reentrant 1 p) = [EventService.COn "x" 2]) as Hs
    by reflexivity.
  assert (EventService.quiet reentrant 2) as Hq2 by (intros p; reflexivity).
  assert (∀ l', l' ∈ EventService.registered "x" (two_on_x 1 6) → l' ≠ 1 →
            EventService.quiet reentrant l') as Hq.
  { intros l' Hl' Hne. apply (elem_of_two 1 6) in Hl' as [->| ->]; [done|].
    apply quiet_reentrant_6. }
  split; [apply reachable_two_on_x|]. split; [exact Hin|]. split; [exact Hout|].
  split; [exact Hs|]. split; [exact Hq2|].
  destruct (EventServiceFacts.listener_added_during_emit_is_called reentrant "x" 1 2 7
              (two_on_x 1 6) (reachable_two_on_x reentrant 1 6) Hin Hout Hs Hq2 Hq)
    as [fuel0 Hemit].
  exists fuel0. intros fuel Hfuel r.
  destruct (Hemit fuel Hfuel) as (Hret & Hcalls & Hreg & _).
  split; [exact Hret|]. split.
  - unfold r. rewrite Hcalls. reflexivity.
  - unfold r. rewrite Hreg. reflexivity.
Defined.

Lemma clear_during_emit_does_not_stop_dispatch_witness :
  EventService.reachable clearing (two_on_x 1 6) ∧
  1 ∈ EventService.registered "x" (two_on_x 1 6) ∧
  (∀ p, EventService.script (clearing 1 p) = [EventService.CClear "x"]) ∧
  ∃ fuel0, ∀ fuel, fuel0 ≤ fuel →
    let r := EventService.emit clearing fuel "x" 7 (two_on_x 1 6) in
    r.1 = Normal tt ∧
    (EventService.calls r.2).*1 = [1; 6] ∧
    EventService.registered "x" r.2 = [].
Proof.
  assert (1 ∈ EventService.registered "x" (two_on_x 1 6)) as Hin by (vm_compute; by left).
  assert (∀ p, EventService.script (clearing 1 p) = [EventService.CClear "x"]) as Hs
    by reflexivity.
  assert (∀ l', l' ∈ EventService.registered "x" (two_on_x 1 6) → l' ≠ 1 →
            EventService.quiet clearing l') as Hq.
  { intros l' Hl' Hne. apply (elem_of_two 1 6) in Hl' as [->| ->]; [done|].
    intros p. reflexivity. }
  split; [apply reachable_two_on_x|]. split; [exact Hin|]. split; [exact Hs|].
  destruct (EventServiceFacts.clear_during_emit_does_not_stop_dispatch clearing "x" 1 7
              (two_on_x 1 6) (reachable_two_on_x clearing 1 6) Hin Hs Hq)
    as [fuel0 Hemit].
  exists fuel0. intros fuel Hfuel r.
  destruct (Hemit fuel Hfuel) as (Hret & Hcalls & Hreg & _).
  split; [exact Hret|]. split.
  - unfold r. rewrite Hcalls. reflexivity.
  - exact Hreg.
Defined.

Lemma useEventOn_mount_unmount_leaves_no_listener_witness :
  EventService.reachable first_throws one_on_x ∧
  (∀ l, l ∈ [7; 8] → l ∉ EventService.registered "x" one_on_x) ∧
  let r := for_each (λ l, Hooks.mount_unmount (Hooks.useEventOn_effect "x" l)) [7; 8]
             one_on_x in
  r.1 = Normal tt ∧
  EventService.listeners r.2 = EventService.listeners one_on_x ∧
  EventService.registered "x" r.2 = [1].
Proof.
  assert (∀ l, l ∈ [7; 8] → l ∉ EventService.registered "x" one_on_x) as Hfresh.
  { intros l [->| ->]%elem_of_two; by apply not_registered_one_on_x. }
  split; [exact reachable_one_on_x|]. split; [exact Hfresh|].
  destruct (EventServiceFacts.useEventOn_mount_unmount_leaves_no_listener first_throws "x"
              [7; 8] one_on_x reachable_one_on_x Hfresh) as (Hret & Hl & _ & Hreg & _).
  split; [exact Hret|]. split; [exact Hl|].
  destruct (Hreg "x") as [-> _]. reflexivity.
Defined.




(** ** The broadcast bus *)









Lemma messageHandler_logs_what_callback_throws_witness :
  let h := {| BroadcastService.handler_addr := 0;
              BroadcastService.handler_channelName := "c";
              BroadcastService.handler_callback := 1 |} in
  BroadcastService.script (first_callback_throws 1 (Some 5)) = [] ∧
  BroadcastService.console
    (BroadcastService.messageHandler all_but_13 first_callback_throws h (Some 5)
       BroadcastService.init).2
  = [(BroadcastService.callback_error_message "c", UserError "Callback error")].
Proof.
  intros h.
  assert (BroadcastService.script (first_callback_throws 1 (Some 5)) = []) as Hs
    by reflexivity.
  split; [exact Hs|].
  rewrite (BroadcastServiceFacts.messageHandler_logs_what_callback_throws all_but_13
             first_callback_throws h (Some 5) BroadcastService.init Hs).
  reflexivity.
Defined.


